(** * slipscheme: schema resolution and type synthesis

    A shallow embedding of the Go package [slipscheme] (JSON Schema to Go
    struct generator) and the properties of its naming engine, emitter,
    reference resolver, type synthesizer and union merger.

    Conventions of the embedding.
    - A Go [string] is a Rocq [string] (a sequence of bytes).
    - A [*Schema] is a [ptr]: [None] is the nil pointer, [Some l] the address
      of a cell of the heap; the heap is a finite map from addresses to
      [Schema] records, so that the in-place overwrite done by the resolver
      and the sharing it creates are visible.
    - A Go map is a [gmap]; a nil map is [None].
    - Functions of other packages (strcase, x/text/cases, encoding/json,
      gofmt, the Unicode tables beyond ASCII, the order in which the runtime
      iterates over the replacement table) are fields of the class [Env]. *)

From Stdlib Require Import ZArith Ascii String.
From stdpp Require Import gmap strings list fin_maps sorting.

Local Open Scope Z_scope.

(** ** Bytes, runes and the functions of package [strings] *)

Module GoStrings.

Definition byte_of (c : ascii) : Z := Z.of_N (N_of_ascii c).
Definition ascii_of (b : Z) : ascii := ascii_of_N (Z.to_N b).

Definition bytes (s : string) : list Z := byte_of <$> list_ascii_of_string s.
Definition of_bytes (bs : list Z) : string := string_of_list_ascii (ascii_of <$> bs).

(** utf8.RuneError *)
Definition RuneError : Z := 65533.

Definition between (lo hi b : Z) : bool := (lo <=? b) && (b <=? hi).

(** utf8.DecodeRuneInString: the rune at the head of the bytes and its width;
    an invalid or truncated encoding is [RuneError] of width 1. *)
Definition DecodeRune (bs : list Z) : Z * nat :=
  match bs with
  | [] => (RuneError, 0%nat)
  | b0 :: r =>
    if b0 <? 128 then (b0, 1%nat)
    else if between 194 223 b0 then
      match r with
      | b1 :: _ =>
        if between 128 191 b1
        then (Z.lor (Z.shiftl (Z.land b0 31) 6) (Z.land b1 63), 2%nat)
        else (RuneError, 1%nat)
      | _ => (RuneError, 1%nat)
      end
    else if between 224 239 b0 then
      match r with
      | b1 :: b2 :: _ =>
        if between (if b0 =? 224 then 160 else 128) (if b0 =? 237 then 159 else 191) b1
           && between 128 191 b2
        then (Z.lor (Z.shiftl (Z.land b0 15) 12)
                (Z.lor (Z.shiftl (Z.land b1 63) 6) (Z.land b2 63)), 3%nat)
        else (RuneError, 1%nat)
      | _ => (RuneError, 1%nat)
      end
    else if between 240 244 b0 then
      match r with
      | b1 :: b2 :: b3 :: _ =>
        if between (if b0 =? 240 then 144 else 128) (if b0 =? 244 then 143 else 191) b1
           && between 128 191 b2 && between 128 191 b3
        then (Z.lor (Z.shiftl (Z.land b0 7) 18)
                (Z.lor (Z.shiftl (Z.land b1 63) 12)
                   (Z.lor (Z.shiftl (Z.land b2 63) 6) (Z.land b3 63))), 4%nat)
        else (RuneError, 1%nat)
      | _ => (RuneError, 1%nat)
      end
    else (RuneError, 1%nat)
  end.

(** The runes a [for _, c := range s] loop yields. *)
Fixpoint runes_fuel (fuel : nat) (bs : list Z) : list Z :=
  match fuel, bs with
  | O, _ | _, [] => []
  | S fuel, _ :: _ =>
    let '(r, w) := DecodeRune bs in r :: runes_fuel fuel (drop w bs)
  end.

Definition runes (s : string) : list Z :=
  let bs := bytes s in runes_fuel (length bs) bs.

(** utf8.AppendRune for a non-negative rune: surrogates and values beyond
    U+10FFFF are written as [RuneError]. *)
Definition EncodeRune (r : Z) : list Z :=
  if r <=? 127 then [r]
  else if r <=? 2047 then
    [Z.lor 192 (Z.shiftr r 6); Z.lor 128 (Z.land r 63)]
  else if (1114111 <? r) || between 55296 57343 r then [239; 191; 189]
  else if r <=? 65535 then
    [Z.lor 224 (Z.shiftr r 12); Z.lor 128 (Z.land (Z.shiftr r 6) 63);
     Z.lor 128 (Z.land r 63)]
  else
    [Z.lor 240 (Z.shiftr r 18); Z.lor 128 (Z.land (Z.shiftr r 12) 63);
     Z.lor 128 (Z.land (Z.shiftr r 6) 63); Z.lor 128 (Z.land r 63)].

(** strings.Map: every rune of [s] is replaced by its image, a negative
    image drops the rune. *)
Definition Map (mapping : Z → Z) (s : string) : string :=
  of_bytes (r ← runes s; let r' := mapping r in if r' <? 0 then [] else EncodeRune r').

(** strings.Split(s, sep) for a separator of one byte: the pieces between
    the occurrences of [sep]; there is always at least one piece. *)
Fixpoint Split (s : string) (sep : ascii) : list string :=
  match s with
  | EmptyString => [EmptyString]
  | String c s' =>
    if Ascii.eqb c sep then EmptyString :: Split s' sep
    else match Split s' sep with
         | [] => [String c EmptyString]
         | p :: ps => String c p :: ps
         end
  end.

Definition HasPrefix (s pre : string) : bool := String.prefix pre s.

Definition TrimPrefix (s pre : string) : string :=
  if HasPrefix s pre
  then String.substring (String.length pre) (String.length s - String.length pre) s
  else s.

Definition HasSuffix (s suf : string) : bool :=
  (String.length suf <=? String.length s)%nat
  && String.eqb
       (String.substring (String.length s - String.length suf) (String.length suf) s) suf.

Definition TrimSuffix (s suf : string) : string :=
  if HasSuffix s suf
  then String.substring 0 (String.length s - String.length suf) s
  else s.

(** sort.Strings: ascending in the byte-wise order of Go's [<] on strings. *)
Definition string_le (a b : string) : Prop := String.leb a b = true.

#[global] Instance string_le_dec a b : Decision (string_le a b).
Proof. unfold string_le. apply _. Defined.

Definition sort_Strings (l : list string) : list string := merge_sort string_le l.

End GoStrings.

Import GoStrings.

(** ** The Unicode classes used by [Schema.Name] *)

Definition ascii_letter (r : Z) : bool := between 65 90 r || between 97 122 r.
Definition ascii_digit (r : Z) : bool := between 48 57 r.

(** ** The schema node *)

(** SchemaType, in the order of the [iota] constants. *)
Inductive SchemaType := ANY | ARRAY | BOOLEAN | INTEGER | NUMBER | NULL | OBJECT | STRING.

#[global] Instance SchemaType_eq_dec : EqDecision SchemaType.
Proof. solve_decision. Defined.

(** The untyped decoding of a document ([any] holding the result of
    json.Unmarshal); a number is kept as its literal, the program never
    inspects one. *)
Inductive json :=
  | JNull
  | JBool (b : bool)
  | JNumber (lit : string)
  | JString (s : string)
  | JArray (l : list json)
  | JObject (m : gmap string json).

Definition loc := nat.
Definition ptr := option loc.

Record Schema := mkSchema {
  Title : string;
  ID : string;
  Type_ : SchemaType;
  Description : string;
  Definitions : option (gmap string ptr);
  Properties : option (gmap string ptr);
  AdditionalProperties : bool;
  PatternProperties : option (gmap string ptr);
  Ref : string;
  Items : ptr;
  OneOf : list ptr;
  Const : string;
  Enum : list string;
  Root : ptr;
  raw : option (gmap string json)
}.

(** The zero value [Schema{}]. *)
Definition zeroSchema : Schema :=
  mkSchema "" "" ANY "" None None false None "" None [] "" [] None None.

(** ** Outcomes of a call *)

(** The [error] values the package returns. *)
Inductive error :=
  | ErrMergeZero                 (* "merging zero schemas" *)
  | ErrGofmt                     (* gofmt did not exit with status 0 *)
  | ErrOpenFile (file : string). (* os.OpenFile failed *)

(** The run-time panics the package can raise. *)
Inductive panic :=
  | NilDereference
  | NilMapAssignment
  | BadTypeAssertion
  | RefNotAMap (part : string)
  | RefNotFound (part : string)
  | UnmarshalFailed
  | BadAddress.

(** A call returns a value, returns an [error], or panics; [OutOfFuel] is
    the recursion bound of the embedding, not a behaviour of the program. *)
Inductive outcome (A : Type) :=
  | Ret (a : A)
  | Err (e : error)
  | Panic (p : panic)
  | OutOfFuel.
Arguments Ret {A} a.
Arguments Err {A} e.
Arguments Panic {A} p.
Arguments OutOfFuel {A}.

#[global] Instance outcome_ret : MRet outcome := λ A a, Ret a.
#[global] Instance outcome_bind : MBind outcome := λ A B f o,
  match o with
  | Ret a => f a
  | Err e => Err e
  | Panic p => Panic p
  | OutOfFuel => OutOfFuel
  end.

Definition heap := gmap loc Schema.

(** ** External functions *)

Inductive stream := os_Stdin | os_Stdout | os_Stderr | user_stream (n : nat).

Class Env := {
  (** unicode.IsLetter and unicode.IsDigit on the runes beyond ASCII *)
  unicode_letter_table : Z → bool;
  unicode_digit_table : Z → bool;
  (** strcase.ToCamel and strcase.ToSnakeWithIgnore *)
  strcase_ToCamel : string → string;
  strcase_ToSnakeWithIgnore : string → string → string;
  (** cases.Title(language.Und).String *)
  caser_String : string → string;
  (** json.MarshalIndent(schema, "// ", "  ") *)
  json_MarshalIndent : heap → Schema → string;
  (** json.Marshal of an untyped value followed by json.Unmarshal into a
      fresh [Schema]: the address of the new node and the extended heap,
      [None] when the decoder reports an error *)
  json_reparse : json → heap → option (loc * heap);
  (** the output of [gofmt -s] on a source text, [None] on a failure *)
  exec_gofmt : string → option string;
  (** path.Join of a directory and a file name *)
  path_Join : string → string → string;
  (** whether os.OpenFile for writing fails on a path *)
  os_OpenFile_fails : string → bool;
  (** the order in which the n-th [range] over the replacement table yields
      its entries *)
  range_replacements : nat → gmap string string → list (string * string);
}.

(** ** The processor and the world it writes to *)

Record Stdio := mkStdio { Stdin : stream; Stdout : stream; Stderr : stream }.

Record SchemaProcessor := mkSchemaProcessor {
  outputDir : string;
  packageName : string;
  overwrite : bool;
  stdout : bool;
  format : bool;
  comment : bool;
  stdio : Stdio;
  replacements : option (gmap string string);
  processed : option (gmap string bool)
}.

(** What the program has written: chunks sent to streams (oldest first),
    the content of the files, and the lines given to package log. *)
Record World := mkWorld {
  written : list (stream * string);
  files : gmap string string;
  logged : list string
}.

(** The state threaded through synthesis: the processor (of which only
    [processed] changes), the world, and the number of [range] statements
    executed so far over the replacement table. *)
Record State := mkState {
  sp : SchemaProcessor;
  world : World;
  ranges : nat
}.

Definition M (A : Type) : Type := State → outcome A * State.

#[global] Instance M_ret : MRet M := λ A a σ, (Ret a, σ).
#[global] Instance M_bind : MBind M := λ A B f m σ,
  match m σ with
  | (Ret a, σ') => f a σ'
  | (Err e, σ') => (Err e, σ')
  | (Panic p, σ') => (Panic p, σ')
  | (OutOfFuel, σ') => (OutOfFuel, σ')
  end.

Definition fail {A} (o : outcome A) : M A := λ σ, (o, σ).

(** A loop [for _, x := range xs] whose body updates an accumulator and may
    return early with an error. *)
Fixpoint forM {A B} (xs : list A) (acc : B) (body : B → A → M B) : M B :=
  match xs with
  | [] => mret acc
  | x :: xs' => acc' ← body acc x; forM xs' acc' body
  end.

Definition nl : string := String (ascii_of_nat 10) EmptyString.
Definition dq : string := String (ascii_of_nat 34) EmptyString.

(** The keys of a map, sorted as by [sort.Strings]. *)
Definition sorted_keys {V} (m : gmap string V) : list string :=
  sort_Strings (map_to_list m).*1.

Definition set_processed (s : SchemaProcessor) (p : option (gmap string bool)) :=
  mkSchemaProcessor (outputDir s) (packageName s) (overwrite s) (stdout s)
    (format s) (comment s) (stdio s) (replacements s) p.

Definition set_replacements (s : SchemaProcessor) (r : option (gmap string string)) :=
  mkSchemaProcessor (outputDir s) (packageName s) (overwrite s) (stdout s)
    (format s) (comment s) (stdio s) r (processed s).

Definition write_to (st : stream) (text : string) (w : World) : World :=
  mkWorld (written w ++ [(st, text)]) (files w) (logged w).

Definition write_file (file content : string) (w : World) : World :=
  mkWorld (written w) (<[file := content]> (files w)) (logged w).

Definition log_Printf (line : string) (w : World) : World :=
  mkWorld (written w) (files w) (logged w ++ [line]).

(** defaultReplacements *)
Definition defaultReplacements : gmap string string :=
  list_to_map [("Id", "ID"); ("Http", "HTTP"); ("Https", "HTTPS"); ("Api", "API");
               ("Url", "URL"); ("Json", "JSON"); ("Xml", "XML"); ("Html", "HTML")].

(** ** Options and the constructor *)

Inductive SchemaProcessorOption :=
  | OutputDir (dir : string)
  | PackageName (name : string)
  | Overwrite (b : bool)
  | Stdout_ (b : bool)
  | Format (b : bool)
  | Comment (b : bool)
  | IO (io : Stdio)
  | Replacements (r : option (gmap string string)).

Definition apply_option (o : SchemaProcessorOption) (s : SchemaProcessor) : SchemaProcessor :=
  match o with
  | OutputDir dir =>
    mkSchemaProcessor dir (packageName s) (overwrite s) (stdout s) (format s)
      (comment s) (stdio s) (replacements s) (processed s)
  | PackageName name =>
    mkSchemaProcessor (outputDir s) name (overwrite s) (stdout s) (format s)
      (comment s) (stdio s) (replacements s) (processed s)
  | Overwrite b =>
    mkSchemaProcessor (outputDir s) (packageName s) b (stdout s) (format s)
      (comment s) (stdio s) (replacements s) (processed s)
  | Stdout_ b =>
    mkSchemaProcessor (outputDir s) (packageName s) (overwrite s) b (format s)
      (comment s) (stdio s) (replacements s) (processed s)
  | Format b =>
    mkSchemaProcessor (outputDir s) (packageName s) (overwrite s) (stdout s) b
      (comment s) (stdio s) (replacements s) (processed s)
  | Comment b =>
    mkSchemaProcessor (outputDir s) (packageName s) (overwrite s) (stdout s)
      (format s) b (stdio s) (replacements s) (processed s)
  | IO io =>
    mkSchemaProcessor (outputDir s) (packageName s) (overwrite s) (stdout s)
      (format s) (comment s) io (replacements s) (processed s)
  | Replacements r => set_replacements s r
  end.

(** One iteration of [s.replacements[k] = v]: an assignment to an entry of
    a nil map panics. *)
Definition assign_replacement (r : option (gmap string string)) (kv : string * string)
  : outcome (option (gmap string string)) :=
  match r with
  | None => Panic NilMapAssignment
  | Some m => Ret (Some (<[kv.1 := kv.2]> m))
  end.

Fixpoint assign_all (kvs : list (string * string)) (r : option (gmap string string))
  : outcome (option (gmap string string)) :=
  match kvs with
  | [] => Ret r
  | kv :: kvs' =>
    match assign_replacement r kv with
    | Ret r' => assign_all kvs' r'
    | o => o
    end
  end.

(** NewSchemaProcessor *)
Definition NewSchemaProcessor (options : list SchemaProcessorOption)
  : outcome SchemaProcessor :=
  let s := mkSchemaProcessor "" "" false false false false
             (mkStdio os_Stdin os_Stdout os_Stderr) None None in
  let s := foldl (λ s o, apply_option o s) s options in
  match assign_all (map_to_list defaultReplacements) (replacements s) with
  | Ret r => Ret (set_replacements s r)
  | Err e => Err e
  | Panic p => Panic p
  | OutOfFuel => OutOfFuel
  end.

Section Engine.
Context `{Env}.

(** ** Naming engine *)

Definition unicode_IsLetter (r : Z) : bool :=
  if r <? 128 then ascii_letter r else unicode_letter_table r.

Definition unicode_IsDigit (r : Z) : bool :=
  if r <? 128 then ascii_digit r else unicode_digit_table r.

(** filepath.Separator on the platforms where it is a slash. *)
Definition filepath_Separator : ascii := "/"%char.

(** Schema.Name *)
Definition Name (s : Schema) : string :=
  let name := Title s in
  let name :=
    if String.eqb name "" then
      let parts := Split (ID s) filepath_Separator in
      Map (λ r, if unicode_IsLetter r || unicode_IsDigit r then r else -1)
          (List.last parts "")
    else name in
  if String.eqb name "" then Description s else name.

(** The first loop of toCamel: the first entry, in the order of the
    iteration, whose key is a suffix of the word ends the call. *)
Fixpoint replace_suffix (word : string) (kvs : list (string * string)) : option string :=
  match kvs with
  | [] => None
  | (k, v) :: kvs' =>
    if HasSuffix word k then Some (TrimSuffix word k +:+ v)
    else replace_suffix word kvs'
  end.

(** The second loop of toCamel: every entry whose key is a prefix of the
    current word rewrites it. *)
Fixpoint replace_prefixes (word : string) (kvs : list (string * string)) : string :=
  match kvs with
  | [] => word
  | (k, v) :: kvs' =>
    replace_prefixes (if HasPrefix word k then v +:+ TrimPrefix word k else word) kvs'
  end.

Definition tick (n : nat) (σ : State) : State :=
  mkState (sp σ) (world σ) (ranges σ + n).

(** SchemaProcessor.toCamel; a [range] over a nil map has no iteration. *)
Definition toCamel (str : string) : M string := λ σ,
  let word := strcase_ToCamel str in
  let table := default ∅ (replacements (sp σ)) in
  match replace_suffix word (range_replacements (ranges σ) table) with
  | Some w => (Ret w, tick 1 σ)
  | None =>
    (Ret (replace_prefixes word (range_replacements (S (ranges σ)) table)), tick 2 σ)
  end.

(** ** Emitter *)

(** SchemaProcessor.structComment *)
Definition structComment (h : heap) (s : SchemaProcessor) (schema : Schema)
    (typeName : string) : string :=
  if negb (comment s) then ""
  else "// " +:+ typeName +:+ " defined from schema:" +:+ nl +:+ "// "
       +:+ json_MarshalIndent h schema +:+ nl.

Definition is_processed (s : SchemaProcessor) (typeName : string) : bool :=
  match processed s with
  | Some m => default false (m !! typeName)
  | None => false
  end.

Definition mark_processed (s : SchemaProcessor) (typeName : string) : SchemaProcessor :=
  set_processed s
    (Some match processed s with
          | None => {[ typeName := true ]}
          | Some m => <[typeName := true]> m
          end).

(** The part of writeGoCode after the registry: the writer. *)
Definition write_out (s : SchemaProcessor) (typeName code : string) (w : World)
  : outcome unit * World :=
  if stdout s then
    if format s then
      match exec_gofmt code with
      | Some out => (Ret (), write_to (Stdout (stdio s)) out w)
      | None => (Err ErrGofmt, w)
      end
    else (Ret (), write_to os_Stdout code w)
  else
    let file := path_Join (outputDir s)
                  (strcase_ToSnakeWithIgnore typeName "Id" +:+ ".go") in
    if negb (overwrite s) && bool_decide (is_Some (files w !! file)) then
      (Ret (), log_Printf ("File " +:+ file +:+ " already exists, skipping without -overwrite") w)
    else if os_OpenFile_fails file then (Err (ErrOpenFile file), w)
    else
      let preamble := "// Code generated by github.com/rdeusser/slipscheme DO NOT EDIT."
                      +:+ nl +:+ "package " +:+ packageName s +:+ nl in
      let w := write_to os_Stdout ("Writing " +:+ file +:+ nl) (write_file file "" w) in
      let w := write_file file (preamble +:+ code) w in
      if format s then
        match exec_gofmt (preamble +:+ code) with
        | Some out => (Ret (), write_file file out w)
        | None => (Err ErrGofmt, w)
        end
      else (Ret (), w).

(** SchemaProcessor.writeGoCode *)
Definition writeGoCode (typeName code : string) : M unit := λ σ,
  if is_processed (sp σ) typeName then (Ret (), σ)
  else
    let s := mark_processed (sp σ) typeName in
    let '(o, w) := write_out s typeName code (world σ) in
    (o, mkState s w (ranges σ)).

(** ** Type synthesizer and union merger *)

(** Following a [*Schema]: a nil pointer panics. *)
Definition deref (h : heap) (p : ptr) : outcome Schema :=
  match p with
  | None => Panic NilDereference
  | Some l => match h !! l with Some s => Ret s | None => Panic BadAddress end
  end.

Definition field_line (fieldName subTypeName k : string) : string :=
  "    " +:+ fieldName +:+ " " +:+ subTypeName +:+ " `json:" +:+ dq +:+ k
  +:+ ",omitempty" +:+ dq +:+ " yaml:" +:+ dq +:+ k +:+ ",omitempty" +:+ dq +:+ "`" +:+ nl.

Definition inline_line (fieldName typeName : string) : string :=
  "    " +:+ fieldName +:+ " " +:+ typeName +:+ " `json:" +:+ dq +:+ ",inline" +:+ dq
  +:+ " yaml:" +:+ dq +:+ ",inline" +:+ dq +:+ "`" +:+ nl.

Definition struct_open (cmt typeName : string) : string :=
  cmt +:+ "type " +:+ typeName +:+ " struct {" +:+ nl.

Definition struct_close : string := "}" +:+ nl +:+ nl.

(** The loop over the sorted keys of a properties map that appends one
    field per key; [rec] synthesizes the type of a property. *)
Definition fields_loop (rec : ptr → M string) (props : gmap string ptr)
    (typeData : string) : M string :=
  forM (sorted_keys props) typeData (λ typeData k,
    let v := default None (props !! k) in
    subTypeName ← rec v;
    fieldName ← toCamel k;
    mret (typeData +:+ field_line fieldName subTypeName k)).

Definition deref_opt (o : option Schema) : outcome Schema :=
  match o with Some s => Ret s | None => Panic NilDereference end.

Fixpoint deref_all (h : heap) (ps : list ptr) : outcome (list Schema) :=
  match ps with
  | [] => Ret []
  | p :: ps' =>
    match deref h p with
    | Ret s =>
      match deref_all h ps' with
      | Ret ss => Ret (s :: ss)
      | o => o
      end
    | Err e => Err e
    | Panic q => Panic q
    | OutOfFuel => OutOfFuel
    end
  end.

Definition get_state : M State := λ σ, (Ret σ, σ).

(** The schemas built by mergeSchemas. *)
Definition synthetic (description : string) (root : ptr) (ty : SchemaType)
    (props : gmap string ptr) : Schema :=
  mkSchema "" "" ty description None (Some props) false None "" None [] "" [] root None.

Definition props_of (s : Schema) : gmap string ptr := default ∅ (Properties s).

Definition add_property (p : string) (v : ptr) (s : Schema) : Schema :=
  mkSchema (Title s) (ID s) (Type_ s) (Description s) (Definitions s)
    (Some (<[p := v]> (props_of s))) (AdditionalProperties s) (PatternProperties s)
    (Ref s) (Items s) (OneOf s) (Const s) (Enum s) (Root s) (raw s).

(** uncommonSchemas after the first loop *)
Definition uncommon_init (parent : Schema) (schemas : list Schema) : gmap string Schema :=
  foldl (λ u schema, <[Name schema := synthetic (Name schema) (Root parent) (Type_ schema) ∅]> u)
        ∅ schemas.

(** allProperties after the counting loop *)
Definition count_properties (schemas : list Schema) : gmap string nat :=
  foldl (λ c schema,
           foldl (λ c p, <[p := S (default O (c !! p))]> c) c (map_to_list (props_of schema)).*1)
        ∅ schemas.

(** The loop that hoists the common properties and files the others under
    the name of their alternative. *)
Definition split_properties (allProperties : gmap string nat) (schemas : list Schema)
    (init : gmap string ptr * gmap string Schema) : gmap string ptr * gmap string Schema :=
  foldl (λ acc schema,
           foldl (λ '(merged, uncommon) '(p, v),
                    if bool_decide (1 < default O (allProperties !! p))%nat
                    then (<[p := v]> merged, uncommon)
                    else (merged, alter (add_property p v) (Name schema) uncommon))
                 acc (map_to_list (props_of schema)))
        init schemas.

(** mergeSchemas for two or more alternatives, already dereferenced. *)
Definition merge_many (h : heap) (rec : Schema → M string) (parent : Schema)
    (schemas : list Schema) : M string :=
  let allProperties := count_properties schemas in
  let '(merged, uncommonSchemas) :=
    split_properties allProperties schemas (∅, uncommon_init parent schemas) in
  let mergedParent := synthetic (Name parent) (Root parent) OBJECT merged in
  typeName ← toCamel (Name mergedParent);
  σ ← get_state;
  let typeData := struct_open (structComment h (sp σ) mergedParent typeName) typeName in
  typeData ← fields_loop (λ v, s ← fail (deref h v); rec s) merged typeData;
  let oneOfKeys :=
    sort_Strings (filter (λ name, match uncommonSchemas !! name with
                                  | Some u => bool_decide (0 < size (props_of u))%nat
                                  | None => false
                                  end = true)
                         (map_to_list uncommonSchemas).*1) in
  typeData ← forM oneOfKeys typeData (λ typeData k,
    u ← fail (deref_opt (uncommonSchemas !! k));
    oneOfTypeName ← rec u;
    fieldName ← toCamel k;
    mret (typeData +:+ inline_line fieldName oneOfTypeName));
  writeGoCode typeName (typeData +:+ struct_close);;
  mret typeName.

(** mergeSchemas, with the synthesizer it calls back as [rec]. *)
Definition mergeSchemas_with (h : heap) (rec : Schema → M string) (parent : Schema)
    (schemas : list ptr) : M string :=
  match schemas with
  | [] => fail (Err ErrMergeZero)
  | [p] => s ← fail (deref h p); rec s
  | _ => alts ← fail (deref_all h schemas); merge_many h rec parent alts
  end.

Definition map_decl (cmt typeName subTypeName : string) : string :=
  cmt +:+ "type " +:+ typeName +:+ " map[string]" +:+ subTypeName +:+ nl +:+ nl.

Definition slice_decl (cmt typeName subTypeName : string) : string :=
  cmt +:+ "type " +:+ typeName +:+ " []" +:+ subTypeName +:+ nl +:+ nl.

(** SchemaProcessor.processSchema on the node a non-nil pointer refers to;
    the heap is only read. *)
Fixpoint processSchema (h : heap) (fuel : nat) (schema : Schema) : M string :=
  match fuel with
  | O => fail OutOfFuel
  | S fuel =>
    let process_ptr (p : ptr) : M string :=
      s ← fail (deref h p); processSchema h fuel s in
    match Type_ schema with
    | OBJECT =>
      typeName ← toCamel (Name schema);
      match Properties schema, PatternProperties schema with
      | Some props, _ =>
        σ ← get_state;
        let typeData := struct_open (structComment h (sp σ) schema typeName) typeName in
        typeData ← fields_loop process_ptr props typeData;
        writeGoCode typeName (typeData +:+ struct_close);;
        mret ("*" +:+ typeName)
      | None, Some pats =>
        forM (sorted_keys pats) typeName (λ typeName k,
          let v := default None (pats !! k) in
          subTypeName ← process_ptr v;
          if String.eqb (caser_String subTypeName) subTypeName then
            let typeName := TrimPrefix (subTypeName +:+ "Map") "*" in
            σ ← get_state;
            writeGoCode typeName
              (map_decl (structComment h (sp σ) schema typeName) typeName subTypeName);;
            mret typeName
          else mret ("map[string]" +:+ subTypeName))
      | None, None =>
        if AdditionalProperties schema then mret "map[string]any" else mret typeName
      end
    | ARRAY =>
      subTypeName ← process_ptr (Items schema);
      typeName ← toCamel (Name schema);
      let typeName :=
        if String.eqb typeName "" then
          if String.eqb (caser_String subTypeName) subTypeName then
            if HasSuffix subTypeName "s" then subTypeName +:+ "es"
            else subTypeName +:+ "s"
          else typeName
        else typeName in
      if negb (String.eqb typeName "") then
        let typeName := TrimPrefix typeName "*" in
        σ ← get_state;
        writeGoCode typeName
          (slice_decl (structComment h (sp σ) schema typeName) typeName subTypeName);;
        mret typeName
      else mret ("[]" +:+ subTypeName)
    | ANY =>
      if bool_decide (0 < length (OneOf schema))%nat then
        mergeSchemas_with h (processSchema h fuel) schema (OneOf schema)
      else if negb (String.eqb (Const schema) "") then mret "string"
      else if bool_decide (0 < length (Enum schema))%nat then mret "string"
      else mret "any"
    | BOOLEAN => mret "bool"
    | INTEGER => mret "int"
    | NUMBER => mret "float64"
    | NULL => mret "any"
    | STRING => mret "string"
    end
  end.

(** SchemaProcessor.mergeSchemas *)
Definition mergeSchemas (h : heap) (fuel : nat) (parent : Schema) (schemas : list ptr)
  : M string :=
  mergeSchemas_with h (processSchema h fuel) parent schemas.

(** processSchema on a pointer. *)
Definition processSchema_ptr (h : heap) (fuel : nat) (p : ptr) : M string :=
  s ← fail (deref h p); processSchema h fuel s.

(** ** Reference resolver *)

Definition set_Root (root : ptr) (s : Schema) : Schema :=
  mkSchema (Title s) (ID s) (Type_ s) (Description s) (Definitions s) (Properties s)
    (AdditionalProperties s) (PatternProperties s) (Ref s) (Items s) (OneOf s)
    (Const s) (Enum s) root (raw s).

Definition set_Title (title : string) (s : Schema) : Schema :=
  mkSchema title (ID s) (Type_ s) (Description s) (Definitions s) (Properties s)
    (AdditionalProperties s) (PatternProperties s) (Ref s) (Items s) (OneOf s)
    (Const s) (Enum s) (Root s) (raw s).

Definition set_Description (description : string) (s : Schema) : Schema :=
  mkSchema (Title s) (ID s) (Type_ s) description (Definitions s) (Properties s)
    (AdditionalProperties s) (PatternProperties s) (Ref s) (Items s) (OneOf s)
    (Const s) (Enum s) (Root s) (raw s).

Definition set_raw (r : option (gmap string json)) (s : Schema) : Schema :=
  mkSchema (Title s) (ID s) (Type_ s) (Description s) (Definitions s) (Properties s)
    (AdditionalProperties s) (PatternProperties s) (Ref s) (Items s) (OneOf s)
    (Const s) (Enum s) (Root s) r.

(** A write through a pointer: [*p = s]. *)
Definition store (h : heap) (p : ptr) (s : Schema) : outcome heap :=
  match p with
  | None => Panic NilDereference
  | Some l => Ret (<[l := s]> h)
  end.

(** The value of the variable [ctx] of setRoot, an [any] that holds a
    [*Schema] or a [map[string]*Schema]. *)
Inductive ctx :=
  | CtxSchema (p : ptr)
  | CtxMap (m : option (gmap string ptr)).

(** The type assertion of [ctx] to a [*Schema], followed by a field access. *)
Definition ctx_schema (h : heap) (c : ctx) : outcome Schema :=
  match c with
  | CtxSchema p => deref h p
  | CtxMap _ => Panic BadTypeAssertion
  end.

(** The walk of the raw document along the whole path. *)
Fixpoint raw_walk (cursor : json) (schemaPath : list string) : outcome json :=
  match schemaPath with
  | [] => Ret cursor
  | part :: rest =>
    if String.eqb part "#" then raw_walk cursor rest
    else match cursor with
         | JObject cast =>
           match cast !! part with
           | Some value => raw_walk value rest
           | None => Panic (RefNotFound part)
           end
         | _ => Panic (RefNotAMap part)
         end
  end.

(** The default case of the switch when the typed walk has no match: the
    node is looked up in the raw document, decoded again, resolved against
    the same root and labelled with the current segment if it has no name. *)
Definition raw_fallback (rec : ptr → heap → outcome heap) (root : ptr)
    (schemaPath : list string) (part : string) (h : heap) : outcome (ctx * heap) :=
  r ← deref h root;
  cursor ← raw_walk (JObject (default ∅ (raw r))) schemaPath;
  match json_reparse cursor h with
  | None => Panic UnmarshalFailed
  | Some (refSchema, h) =>
    h ← rec (Some refSchema) h;
    n ← deref h (Some refSchema);
    h ← (if String.eqb (Name n) "" then store h (Some refSchema) (set_Description part n)
         else Ret h);
    Ret (CtxSchema (Some refSchema), h)
  end.

(** One iteration of the loop over the segments of the path. *)
Definition ref_step (rec : ptr → heap → outcome heap) (root : ptr)
    (schemaPath : list string) (part : string) (c : ctx) (h : heap)
  : outcome (ctx * heap) :=
  if String.eqb part "#" then Ret (CtxSchema root, h)
  else if String.eqb part "definitions" then
    s ← ctx_schema h c; Ret (CtxMap (Definitions s), h)
  else if String.eqb part "properties" then
    s ← ctx_schema h c; Ret (CtxMap (Properties s), h)
  else if String.eqb part "patternProperties" then
    s ← ctx_schema h c; Ret (CtxMap (PatternProperties s), h)
  else if String.eqb part "items" then
    s ← ctx_schema h c; Ret (CtxSchema (Items s), h)
  else
    match c with
    | CtxMap (Some cast) =>
      match cast !! part with
      | Some def => Ret (CtxSchema def, h)
      | None => raw_fallback rec root schemaPath part h
      end
    | _ => raw_fallback rec root schemaPath part h
    end.

Fixpoint ref_walk (rec : ptr → heap → outcome heap) (root : ptr)
    (schemaPath parts : list string) (c : ctx) (h : heap) : outcome (ctx * heap) :=
  match parts with
  | [] => Ret (c, h)
  | part :: rest =>
    '(c, h) ← ref_step rec root schemaPath part c h;
    ref_walk rec root schemaPath rest c h
  end.

(** The last block of setRoot: a node that carries a [$ref] is overwritten
    with the node the path leads to. *)
Definition resolve_ref (rec : ptr → heap → outcome heap) (root schema : ptr) (h : heap)
  : outcome heap :=
  n ← deref h schema;
  if negb (String.eqb (Ref n) "") then
    let schemaPath := Split (Ref n) "/" in
    '(c, h) ← ref_walk rec root schemaPath schemaPath (CtxSchema schema) h;
    match c with
    | CtxSchema cast => target ← deref h cast; store h schema target
    | CtxMap _ => Ret h
    end
  else Ret h.

Fixpoint for_heap {A} (xs : list A) (h : heap) (body : A → heap → outcome heap)
  : outcome heap :=
  match xs with
  | [] => Ret h
  | x :: xs' => h ← body x h; for_heap xs' h body
  end.

(** setRoot; the entries of a properties map are visited in the order of
    [map_to_list]. *)
Fixpoint setRoot (fuel : nat) (root schema : ptr) (h : heap) : outcome heap :=
  match fuel with
  | O => OutOfFuel
  | S fuel =>
    n ← deref h schema;
    h ← store h schema (set_Root root n);
    n ← deref h schema;
    h ← match Properties n with
        | Some props =>
          for_heap (map_to_list props) h (λ '(k, v) h,
            h ← setRoot fuel root v h;
            nv ← deref h v;
            if String.eqb (Name nv) "" then store h v (set_Title k nv) else Ret h)
        | None => Ret h
        end;
    n ← deref h schema;
    h ← match PatternProperties n with
        | Some pats => for_heap (map_to_list pats) h (λ '(_, v) h, setRoot fuel root v h)
        | None => Ret h
        end;
    n ← deref h schema;
    h ← match Items n with
        | Some _ => setRoot fuel root (Items n) h
        | None => Ret h
        end;
    n ← deref h schema;
    h ← for_heap (OneOf n) h (λ one h, setRoot fuel root one h);
    resolve_ref (setRoot fuel root) root schema h
  end.

(** SchemaProcessor.ParseSchema after the two calls to json.Unmarshal: [h]
    holds the decoded graph rooted at [schema], [rawdoc] is the untyped
    decoding of the same bytes. *)
Definition ParseSchema (fuel : nat) (h : heap) (schema : loc)
    (rawdoc : gmap string json) : outcome heap :=
  n ← deref h (Some schema);
  h ← store h (Some schema) (set_raw (Some rawdoc) n);
  setRoot fuel (Some schema) (Some schema) h.

End Engine.

(** ** An environment for the examples

    The functions of strcase and cases below follow the libraries on ASCII
    input.  The examples print to the standard output without gofmt and
    without comments and resolve their references in the typed graph, so
    that the writer, the formatter and the decoder are not consulted. *)

Module Examples.

Definition is_space (b : Z) : bool := (b =? 32) || between 9 13 b.

Definition TrimSpace (s : string) : string :=
  let drop_spaces := fix go (bs : list Z) :=
    match bs with
    | b :: r => if is_space b then go r else bs
    | [] => []
    end in
  of_bytes (rev (drop_spaces (rev (drop_spaces (bytes s))))).

(** The loop of strcase's toCamelInitCase. *)
Fixpoint camel_loop (bs : list Z) (first capNext prevIsCap hasAcronym : bool) : list Z :=
  match bs with
  | [] => []
  | v :: r =>
    let vIsCap := between 65 90 v in
    let vIsLow := between 97 122 v in
    let v' :=
      if capNext then (if vIsLow then v - 32 else v)
      else if first then (if vIsCap then v + 32 else v)
      else if prevIsCap && vIsCap && negb hasAcronym then v + 32
      else v in
    if vIsCap || vIsLow then v' :: camel_loop r false false vIsCap hasAcronym
    else if between 48 57 v then v' :: camel_loop r false true vIsCap hasAcronym
    else camel_loop r false ((v =? 95) || (v =? 32) || (v =? 45) || (v =? 46))
           vIsCap hasAcronym
  end.

(** strcase.ToCamel with the acronym table the package starts with. *)
Definition ToCamel (s : string) : string :=
  let s := TrimSpace s in
  if String.eqb s "" then s
  else
    let hasAcronym := String.eqb s "ID" in
    let s := if hasAcronym then "id" else s in
    of_bytes (camel_loop (bytes s) true true false hasAcronym).

(** Title casing of ASCII text: the first letter of a word in upper case,
    its other letters in lower case. *)
Fixpoint title_loop (bs : list Z) (start : bool) : list Z :=
  match bs with
  | [] => []
  | v :: r =>
    if between 65 90 v then (if start then v else v + 32) :: title_loop r false
    else if between 97 122 v then (if start then v - 32 else v) :: title_loop r false
    else if between 48 57 v then v :: title_loop r false
    else v :: title_loop r true
  end.

Definition Title_String (s : string) : string := of_bytes (title_loop (bytes s) true).

Definition env (order : nat → gmap string string → list (string * string)) : Env := {|
  unicode_letter_table := λ _, false;
  unicode_digit_table := λ _, false;
  strcase_ToCamel := ToCamel;
  strcase_ToSnakeWithIgnore := λ s _, s;
  caser_String := Title_String;
  json_MarshalIndent := λ _ _, "";
  json_reparse := λ _ _, None;
  exec_gofmt := λ code, Some code;
  path_Join := λ dir file, dir +:+ "/" +:+ file;
  os_OpenFile_fails := λ _, false;
  range_replacements := order
|}.

(** Two iteration orders over a table: ascending and descending keys. *)
Definition ascending (_ : nat) (m : gmap string string) : list (string * string) :=
  merge_sort (λ a b, string_le a.1 b.1) (map_to_list m).

Definition descending (n : nat) (m : gmap string string) : list (string * string) :=
  rev (ascending n m).

(** A processor that prints to the standard output, as built by
    NewSchemaProcessor from the options Stdout(true), Replacements(r). *)
Definition start (s : SchemaProcessor) : State := mkState s (mkWorld [] ∅ []) 0.

Definition new (options : list SchemaProcessorOption) : SchemaProcessor :=
  match NewSchemaProcessor options with
  | Ret s => s
  | _ => mkSchemaProcessor "" "" false false false false
           (mkStdio os_Stdin os_Stdout os_Stderr) None None
  end.

Definition printed (σ : State) : list string := (written (world σ)).*2.

Definition node (title : string) (ty : SchemaType) (props : option (list (string * loc)))
    (ref : string) : Schema :=
  mkSchema title "" ty "" None
    ((λ l, list_to_map (prod_map id Some <$> l)) <$> props)
    false None ref None [] "" [] None None.

End Examples.



(** ** Schema types and their names *)

(** SchemaType.String; the fall-through [unknown] is for integers that are
    none of the eight constants, which the type [SchemaType] excludes. *)
Definition SchemaType_String (s : SchemaType) : string :=
  match s with
  | ANY => "any"
  | ARRAY => "array"
  | BOOLEAN => "boolean"
  | INTEGER => "integer"
  | NUMBER => "number"
  | NULL => "null"
  | OBJECT => "object"
  | STRING => "string"
  end.

(** SchemaTypes *)
Definition SchemaTypes : gmap string SchemaType :=
  list_to_map [("array", ARRAY); ("boolean", BOOLEAN); ("integer", INTEGER);
               ("number", NUMBER); ("null", NULL); ("object", OBJECT);
               ("string", STRING)].

Inductive type_error :=
  | NotAString                        (* json.Unmarshal into a string failed *)
  | UnknownSchemaType (name : string) (* unknown schema type "name" *)
  | UnknownSchemaValue.               (* unknown Schema Type *)

(** SchemaType.UnmarshalJSON; [unmarshal_string] is json.Unmarshal into a
    Go string. *)
Definition SchemaType_UnmarshalJSON (unmarshal_string : string → option string)
    (b : string) : SchemaType + type_error :=
  match unmarshal_string b with
  | None => inr NotAString
  | Some schemaType =>
    match SchemaTypes !! schemaType with
    | Some val => inl val
    | None => inr (UnknownSchemaType schemaType)
    end
  end.

(** SchemaType.MarshalJSON; the verb %q on a name of [SchemaType_String]
    writes the name between two quotes. *)
Definition SchemaType_MarshalJSON (s : SchemaType) : string + type_error :=
  let schemaType := SchemaType_String s in
  if String.eqb schemaType "unknown" then inr UnknownSchemaValue
  else inl (dq +:+ schemaType +:+ dq).

(** ** The command line: the flag of the replacements *)

Module Flag.

(** strings.Count(s, sep) for a separator of one byte. *)
Fixpoint Count (s : string) (sep : ascii) : nat :=
  match s with
  | EmptyString => O
  | String c s' => (if Ascii.eqb c sep then 1 else 0) + Count s' sep
  end%nat.

Fixpoint TrimLeft (s : string) (cut : ascii) : string :=
  match s with
  | EmptyString => EmptyString
  | String c s' => if Ascii.eqb c cut then TrimLeft s' cut else s
  end.

(** The text without its trailing bytes equal to [cut]. *)
Fixpoint TrimRight (s : string) (cut : ascii) : string :=
  match s with
  | EmptyString => EmptyString
  | String c s' =>
    match TrimRight s' cut with
    | EmptyString => if Ascii.eqb c cut then EmptyString else String c EmptyString
    | t => String c t
    end
  end.

(** strings.Trim(s, cutset) for a cutset of one byte. *)
Definition Trim (s : string) (cut : ascii) : string := TrimRight (TrimLeft s cut) cut.

(** strings.SplitN(s, sep, 2) for a separator of one byte: the text before
    and the text after the first separator, or the text alone. *)
Fixpoint SplitN2 (s : string) (sep : ascii) : list string :=
  match s with
  | EmptyString => [EmptyString]
  | String c s' =>
    if Ascii.eqb c sep then [EmptyString; s']
    else match SplitN2 s' sep with
         | p :: ps => String c p :: ps
         | [] => [String c EmptyString]
         end
  end.

Inductive set_error :=
  | NotKeyValue (text : string)  (* "must be formatted as key=value" *)
  | CsvError.                    (* the error of csv.Reader.Read *)

(** The loop of Set over the pairs. *)
Fixpoint fill (ss : list string) (m : gmap string string)
  : gmap string string + set_error :=
  match ss with
  | [] => inl m
  | text :: ss' =>
    match SplitN2 text "="%char with
    | [k; v] => fill ss' (<[k := v]> m)
    | _ => inr (NotKeyValue text)
    end
  end.

(** Replacements.Set: the new value of the receiver, or an error, in which
    case the receiver keeps its value; [csv_Read] is the first record that
    encoding/csv reads from the text. *)
Definition Set_ (csv_Read : string → option (list string)) (s : string)
  : gmap string string + set_error :=
  match Count s "="%char with
  | O => inr (NotKeyValue s)
  | 1%nat => fill [Trim s (ascii_of_nat 34)] ∅
  | _ =>
    match csv_Read s with
    | Some ss => fill ss ∅
    | None => inr CsvError
    end
  end.

(** The options runMain passes to NewSchemaProcessor; the map of the flag
    is never nil. *)
Definition runMain_options (outputDir pkgName : string)
    (overwrite stdout format comments : bool) (io : Stdio)
    (replacements : gmap string string) : list SchemaProcessorOption :=
  [OutputDir outputDir; PackageName pkgName; Overwrite overwrite; Stdout_ stdout;
   Format format; Comment comments; IO io; Replacements (Some replacements)].

End Flag.

(** ** Processing a list of files *)

(** What reading and decoding need from outside: the bytes read from a
    named file or from the standard input, and the two decodings of
    json.Unmarshal (the typed graph with the address of its root, and the
    untyped document). *)
Inductive read_result :=
  | ReadBytes (b : string)
  | OpenFailed
  | ReadFailed.

Class Input := {
  read_input : string → World → read_result;
  json_Unmarshal_Schema : string → option (heap * loc);
  json_Unmarshal_raw : string → option (gmap string json);
}.

Inductive process_error :=
  | ReadError (file : string)
  | DecodeError (file : string)
  | SynthesisError (e : error).

(** How Process ends: it returns nil, returns an error, or panics. *)
Inductive run_result :=
  | Finished
  | Failed (e : process_error)
  | Crashed (p : panic)
  | Exhausted.

Section Process.
Context `{Env} `{Input}.

(** SchemaProcessor.ParseSchema on the bytes of a document. *)
Definition ParseSchema_bytes (fuel : nat) (data : string)
  : option (outcome (heap * loc)) :=
  match json_Unmarshal_Schema data with
  | None => None
  | Some (h, schema) =>
    match json_Unmarshal_raw data with
    | None => None
    | Some rawdoc =>
      Some (h' ← ParseSchema fuel h schema rawdoc; Ret (h', schema))
    end
  end.

(** SchemaProcessor.Process: the first failure ends the loop. *)
Fixpoint Process (fuel : nat) (files : list string) (σ : State) : run_result * State :=
  match files with
  | [] => (Finished, σ)
  | file :: rest =>
    match read_input file (world σ) with
    | OpenFailed | ReadFailed => (Failed (ReadError file), σ)
    | ReadBytes b =>
      match ParseSchema_bytes fuel b with
      | None => (Failed (DecodeError file), σ)
      | Some (Ret (h, schema)) =>
        match processSchema_ptr h fuel (Some schema) σ with
        | (Ret _, σ') => Process fuel rest σ'
        | (Err e, σ') => (Failed (SynthesisError e), σ')
        | (Panic p, σ') => (Crashed p, σ')
        | (OutOfFuel, σ') => (Exhausted, σ')
        end
      | Some (Err e) => (Failed (SynthesisError e), σ)
      | Some (Panic p) => (Crashed p, σ)
      | Some OutOfFuel => (Exhausted, σ)
      end
    end
  end.

End Process.
(** * Reference definitions

    Definitions the properties are stated against. *)

Section Reference.
Context `{Env}.

(** The text after the last separator, written without [Split]. *)
Fixpoint contains_sep (sep : ascii) (s : string) : bool :=
  match s with
  | EmptyString => false
  | String c s' => Ascii.eqb c sep || contains_sep sep s'
  end.

Fixpoint last_segment (sep : ascii) (s : string) : string :=
  match s with
  | EmptyString => EmptyString
  | String c s' =>
    if contains_sep sep s' then last_segment sep s'
    else if Ascii.eqb c sep then s'
    else String c s'
  end.

(** The letters and digits of a text, in their order. *)
Definition is_alnum (r : Z) : bool := unicode_IsLetter r || unicode_IsDigit r.

Definition keep_alnum (s : string) : string :=
  of_bytes (filter (λ r, is_alnum r = true) (runes s) ≫= EncodeRune).

(** The derivation of a name, as the documentation of [Name] words it:
    the title, or the identifier, or the description, in that order; the
    identifier contributes the letters and digits of its last segment. *)
Definition deriveName (s : Schema) : string :=
  if bool_decide (Title s ≠ "") then Title s
  else if bool_decide (keep_alnum (last_segment "/" (ID s)) ≠ "")
       then keep_alnum (last_segment "/" (ID s))
       else Description s.

End Reference.

(** The table the options leave in the processor: the argument of the last
    [Replacements] option, the nil map when there is none. *)
Definition last_Replacements (options : list SchemaProcessorOption)
  : option (gmap string string) :=
  default None
    (last (omap (λ o, match o with Replacements r => Some r | _ => None end) options)).




Section EmitAll.
Context `{Env}.

(** A sequence of calls to writeGoCode, whatever each call returns. *)
Definition emit_all (calls : list (string * string)) (σ : State) : State :=
  foldl (λ σ call, (writeGoCode call.1 call.2 σ).2) σ calls.


(** The two lines a generated file starts with. *)
Definition preamble (s : SchemaProcessor) : string :=
  "// Code generated by github.com/rdeusser/slipscheme DO NOT EDIT." +:+ nl
  +:+ "package " +:+ packageName s +:+ nl.



End EmitAll.

(** A processor that writes files to the directory out and does not
    overwrite, started where the file of the type Foo exists. *)
Definition Foo_exists : State :=
  mkState (Examples.new [OutputDir "out"; PackageName "main"; Replacements (Some ∅)])
    (mkWorld [] {[ "out/Foo.go" := "old" ]} []) 0.

Section SynthesisReference.
Context `{Env}.

(** The fields of a struct: one per key, in the order of the keys.  The
    type of the field of key [k] is what [rec] returns on the schema of [k],
    its name is what toCamel returns on [k]; the state is threaded through
    the calls in that order.  A field is the triple of its name, its type
    and its key. *)
Inductive fields_run (rec : ptr → M string) (props : gmap string ptr)
  : list string → State → list (string * string * string) → State → Prop :=
  | fields_nil σ : fields_run rec props [] σ [] σ
  | fields_cons k ks σ ty σ1 fn σ2 fs σ3 :
      rec (default None (props !! k)) σ = (Ret ty, σ1) →
      toCamel k σ1 = (Ret fn, σ2) →
      fields_run rec props ks σ2 fs σ3 →
      fields_run rec props (k :: ks) σ ((fn, ty, k) :: fs) σ3.

(** The lines of the fields of a struct. *)
Fixpoint fields_text (fs : list (string * string * string)) : string :=
  match fs with
  | [] => ""
  | (fn, ty, k) :: fs' => field_line fn ty k +:+ fields_text fs'
  end.

(** The inlined groups of a merged struct: one per name, in the order of
    the names; [rec] synthesizes the group filed under a name. *)
Inductive groups_run (rec : Schema → M string) (uncommon : gmap string Schema)
  : list string → State → list (string * string) → State → Prop :=
  | groups_nil σ : groups_run rec uncommon [] σ [] σ
  | groups_cons k ks σ u ty σ1 fn σ2 gs σ3 :
      uncommon !! k = Some u →
      rec u σ = (Ret ty, σ1) →
      toCamel k σ1 = (Ret fn, σ2) →
      groups_run rec uncommon ks σ2 gs σ3 →
      groups_run rec uncommon (k :: ks) σ ((fn, ty) :: gs) σ3.

Fixpoint groups_text (gs : list (string * string)) : string :=
  match gs with
  | [] => ""
  | (fn, ty) :: gs' => inline_line fn ty +:+ groups_text gs'
  end.

(** The number of alternatives that have a property of key [p]. *)
Definition occurrences (p : string) (schemas : list Schema) : nat :=
  length (filter (λ a, is_Some (props_of a !! p)) schemas).

(** The pointers synthesis may follow from a node. *)
Definition children (s : Schema) : list ptr :=
  (map_to_list (props_of s)).*2
  ++ (map_to_list (default ∅ (PatternProperties s))).*2
  ++ [Items s] ++ OneOf s.

(** [fuel] bounds the depth of the graph below a node. *)
Fixpoint fuel_ok (h : heap) (fuel : nat) (s : Schema) : Prop :=
  match fuel with
  | O => False
  | S fuel => ∀ p c, p ∈ children s → deref h p = Ret c → fuel_ok h fuel c
  end.

End SynthesisReference.

(** * Invariants of a run *)

(** The fields of a processor that the options set. *)
Definition same_config (s s' : SchemaProcessor) : Prop :=
  outputDir s = outputDir s' ∧ packageName s = packageName s'
  ∧ overwrite s = overwrite s' ∧ stdout s = stdout s' ∧ format s = format s'
  ∧ comment s = comment s' ∧ stdio s = stdio s' ∧ replacements s = replacements s'.

(** What a run may do to the state: the configuration stays; the names of
    the registry stay; what was written to the streams and to the log stays
    at the front of what is written; a processor that prints to the standard
    output leaves the files alone; a processor that does not overwrite
    leaves the files that exist alone. *)
Definition extends (σ σ' : State) : Prop :=
  same_config (sp σ) (sp σ')
  ∧ (∀ name, is_processed (sp σ) name = true → is_processed (sp σ') name = true)
  ∧ (ranges σ ≤ ranges σ')%nat
  ∧ written (world σ) `prefix_of` written (world σ')
  ∧ logged (world σ) `prefix_of` logged (world σ')
  ∧ (stdout (sp σ) = true → files (world σ') = files (world σ))
  ∧ (overwrite (sp σ) = false →
     ∀ file content, files (world σ) !! file = Some content →
                     files (world σ') !! file = Some content).

(** A processor that prints to the standard output without gofmt. *)
Definition prints_unformatted (s : SchemaProcessor) : Prop :=
  stdout s = true ∧ format s = false.

(** A computation that keeps to [extends] and, for a processor that prints
    unformatted, returns no error. *)
Definition well_behaved {A} (m : M A) : Prop :=
  ∀ σ, extends σ (m σ).2
       ∧ (prints_unformatted (sp σ) → ∀ e, (m σ).1 ≠ Err e).

(** The field of the processor an option sets. *)
Definition option_field (o : SchemaProcessorOption) : nat :=
  match o with
  | OutputDir _ => 0
  | PackageName _ => 1
  | Overwrite _ => 2
  | Stdout_ _ => 3
  | Format _ => 4
  | Comment _ => 5
  | IO _ => 6
  | Replacements _ => 7
  end%nat.

(** An outcome that is not an error value. *)
Definition no_error {A} (o : outcome A) : Prop := ∀ e, o ≠ Err e.

(** The keywords of a node: all its fields but the title, the description
    and the back-reference to the root. *)
Definition same_keywords (n n' : Schema) : Prop :=
  ID n = ID n' ∧ Type_ n = Type_ n' ∧ Definitions n = Definitions n'
  ∧ Properties n = Properties n' ∧ AdditionalProperties n = AdditionalProperties n'
  ∧ PatternProperties n = PatternProperties n' ∧ Ref n = Ref n' ∧ Items n = Items n'
  ∧ OneOf n = OneOf n' ∧ Const n = Const n' ∧ Enum n = Enum n' ∧ raw n = raw n'.

Section ResolutionReference.
Context `{Env}.

(** What resolution against [root] may do to a node: it keeps its keywords,
    keeps its title and its description once it has a name, and keeps its
    root once that is [root]. *)
Definition kept (root : ptr) (n n' : Schema) : Prop :=
  same_keywords n n'
  ∧ (Root n = root → Root n' = root)
  ∧ (Name n ≠ "" → Title n' = Title n ∧ Description n' = Description n).

(** What resolution against [root] may do to the heap: no cell is freed, and
    a cell whose node carries no reference is kept. *)
Definition resolves (root : ptr) (h h' : heap) : Prop :=
  ∀ l n, h !! l = Some n →
    ∃ n', h' !! l = Some n' ∧ (Ref n = "" → kept root n n').

End ResolutionReference.

(** The nodes a walk from [p] reaches through the properties, the pattern
    properties, the items and the alternatives of nodes that carry no
    reference. *)
Inductive reaches (h : heap) : ptr → loc → Prop :=
  | reaches_here l n : h !! l = Some n → reaches h (Some l) l
  | reaches_property l n props k v l' :
      h !! l = Some n → Ref n = "" → Properties n = Some props →
      props !! k = Some v → reaches h v l' → reaches h (Some l) l'
  | reaches_pattern l n pats k v l' :
      h !! l = Some n → Ref n = "" → PatternProperties n = Some pats →
      pats !! k = Some v → reaches h v l' → reaches h (Some l) l'
  | reaches_items l n l' :
      h !! l = Some n → Ref n = "" → reaches h (Items n) l' → reaches h (Some l) l'
  | reaches_oneOf l n one l' :
      h !! l = Some n → Ref n = "" → one ∈ OneOf n → reaches h one l' →
      reaches h (Some l) l'.

Module ExamplesMore.

(** Decoding of a JSON string literal without escapes: the text between
    its two quotes. *)
Definition unquote (b : string) : option string :=
  match b with
  | String c r =>
    if Ascii.eqb c (ascii_of_nat 34) && HasSuffix r dq
    then Some (TrimSuffix r dq) else None
  | EmptyString => None
  end.

(** An input for the examples: every file holds the same document, given
    by its decoded graph. *)
Definition fixed_input (h : heap) (root : loc) : Input := {|
  read_input := λ _ _, ReadBytes "{}";
  json_Unmarshal_Schema := λ _, Some (h, root);
  json_Unmarshal_raw := λ _, Some ∅
|}.

(** A document whose root has the properties a, a string, and b, a
    reference to a. *)
Definition doc_root : Schema :=
  Examples.node "Doc" OBJECT (Some [("a", 1%nat); ("b", 2%nat)]) "".

Definition doc : heap :=
  {[ 0%nat := doc_root;
     1%nat := Examples.node "" STRING None "";
     2%nat := Examples.node "" ANY None "#/properties/a" ]}.

End ExamplesMore.
(** * Properties *)

(** ** Naming engine: [Schema.Name] *)

Section NameProperties.
Context `{Env}.

Lemma Split_nonempty s sep : Split s sep ≠ [].
Proof.
  destruct s as [|c s]; simpl; [done|].
  destruct (Ascii.eqb c sep); [done|]. by destruct (Split s sep).
Qed.

Lemma Split_single s sep : contains_sep sep s = false → Split s sep = [s].
Proof.
  induction s as [|c s IH]; simpl; [done|].
  intros [Hc Hs]%orb_false_iff. rewrite Hc, (IH Hs). done.
Qed.

Lemma last_Split s sep : List.last (Split s sep) "" = last_segment sep s.
Proof.
  induction s as [|c s IH]; [done|]. simpl.
  destruct (contains_sep sep s) eqn:Hs.
  - destruct (Ascii.eqb c sep).
    + pose proof (Split_nonempty s sep).
      simpl. destruct (Split s sep) eqn:E; [done|]. by rewrite <-IH.
    + pose proof (Split_nonempty s sep).
      destruct (Split s sep) as [|p ps] eqn:E; [done|].
      destruct ps as [|p' ps].
      * exfalso. clear IH H0.
        assert (∀ t, contains_sep sep t = true → ∀ q, Split t sep ≠ [q]) as Hno.
        { clear. induction t as [|d t IH]; simpl; [done|].
          destruct (Ascii.eqb d sep) eqn:Hd; simpl.
          - intros _ q Hq. pose proof (Split_nonempty t sep).
            destruct (Split t sep); congruence.
          - intros Ht q. pose proof (Split_nonempty t sep).
            destruct (Split t sep) as [|r [|r' rs]] eqn:Et; [done| |congruence].
            exfalso. by apply (IH Ht r). }
        by apply (Hno s Hs p).
      * rewrite <-IH. done.
  - rewrite (Split_single _ _ Hs). destruct (Ascii.eqb c sep); done.
Qed.

Lemma Map_filter (keep : Z → bool) s :
  (∀ r, keep r = true → 0 ≤ r) →
  Map (λ r, if keep r then r else -1) s
  = of_bytes (filter (λ r, keep r = true) (runes s) ≫= EncodeRune).
Proof.
  intros Hpos. unfold Map. f_equal.
  induction (runes s) as [|r rs IH]; [done|].
  rewrite filter_cons, bind_cons, IH. destruct (keep r) eqn:Hk.
  - rewrite decide_True by done. specialize (Hpos r Hk).
    destruct (r <? 0) eqn:E; [lia|]. by rewrite bind_cons.
  - rewrite decide_False by congruence. done.
Qed.

Lemma alnum_nonneg r : is_alnum r = true → 0 ≤ r.
Proof.
  unfold is_alnum, unicode_IsLetter, unicode_IsDigit, ascii_letter, ascii_digit, between.
  destruct (r <? 128) eqn:E; [lia|lia].
Qed.

Lemma Name_deriveName s : Name s = deriveName s.
Proof.
  unfold Name, deriveName, filepath_Separator.
  rewrite last_Split. fold is_alnum. rewrite (Map_filter _ _ alnum_nonneg). fold (keep_alnum (last_segment "/" (ID s))).
  destruct (String.eqb_spec (Title s) "") as [Ht|Ht].
  - rewrite bool_decide_false by naive_solver.
    destruct (String.eqb_spec (keep_alnum (last_segment "/" (ID s))) "") as [Hk|Hk].
    + rewrite bool_decide_false by naive_solver. done.
    + rewrite bool_decide_true by done. done.
  - rewrite bool_decide_true by done.
    destruct (String.eqb_spec (Title s) ""); done.
Qed.

(** C6 (amended): [Name] is the title when it is not empty, else the letters
    and digits of the last segment of the id (the text after its last slash,
    which is empty when the id ends with a slash) when there are any, else
    the description.  With no title, the id
    https://example.com/schemas/person.json yields personjson (the dot is
    dropped, the extension is kept), and an id ending with a slash yields the
    description. *)
Theorem Name_title_id_description :
  (∀ s : Schema, Name s = deriveName s)
  ∧ (∀ d : string,
       Name (mkSchema "" "https://example.com/schemas/person.json" ANY d
               None None false None "" None [] "" [] None None) = "personjson")
  ∧ (∀ d : string,
       Name (mkSchema "" "https://example.com/schemas/" ANY d
               None None false None "" None [] "" [] None None) = d).
Proof.
  split; [apply Name_deriveName|]. split; intros d.
  - vm_compute. reflexivity.
  - vm_compute. reflexivity.
Qed.

End NameProperties.

(** C6, counterexample: with no title and the id
    https://example.com/schemas/person.json the derived name is not person. *)
Lemma Name_person_json_not_person :
  @Name (Examples.env Examples.ascending)
    (mkSchema "" "https://example.com/schemas/person.json" ANY ""
       None None false None "" None [] "" [] None None) ≠ "person".
Proof. vm_compute. discriminate. Qed.

(** ** The constructor *)

Lemma replacements_foldl options s :
  replacements (foldl (λ s o, apply_option o s) s options)
  = default (replacements s)
      (last (omap (λ o, match o with Replacements r => Some r | _ => None end) options)).
Proof.
  revert s. induction options as [|o os IH]; intros s; [done|].
  simpl. rewrite IH. destruct o; simpl; try done.
  rewrite last_cons. by destruct (last _).
Qed.

Lemma assign_all_nil kvs : kvs ≠ [] → assign_all kvs None = Panic NilMapAssignment.
Proof. by destruct kvs. Qed.

Lemma assign_all_some kvs m :
  NoDup kvs.*1 → assign_all kvs (Some m) = Ret (Some (list_to_map kvs ∪ m)).
Proof.
  revert m. induction kvs as [|[k v] kvs IH]; intros m Hnd.
  - simpl. by rewrite (left_id_L ∅ (∪)).
  - apply NoDup_cons in Hnd as [Hk Hnd]. simpl. rewrite (IH _ Hnd). do 2 f_equal.
    apply map_eq. intros i. rewrite !lookup_union.
    destruct (decide (i = k)) as [->|Hne].
    + rewrite !lookup_insert_eq.
      rewrite (not_elem_of_list_to_map_1 _ _ Hk). by destruct (m !! k).
    + rewrite !lookup_insert_ne by done. done.
Qed.

Lemma NewSchemaProcessor_cases options :
  match last_Replacements options with
  | None => NewSchemaProcessor options = Panic NilMapAssignment
  | Some m =>
    ∃ s, NewSchemaProcessor options = Ret s
         ∧ replacements s = Some (defaultReplacements ∪ m)
  end.
Proof.
  unfold NewSchemaProcessor, last_Replacements.
  rewrite replacements_foldl. simpl.
  destruct (default None (last _)) as [m|].
  - rewrite assign_all_some by apply NoDup_fst_map_to_list.
    rewrite list_to_map_to_list. eexists. split; [done|]. done.
  - rewrite assign_all_nil; [done|].
    intros Hnil%map_to_list_empty_iff. by apply (f_equal (.!! "Id")) in Hnil.
Qed.

(** C10 (amended): the constructor panics with an assignment to an entry of
    a nil map exactly when the table is nil once all options have been
    applied, that is when no [Replacements] option was given or the last one
    given carried a nil map; when the last one carried a map, the
    constructor returns and the table is that map overridden by the built-in
    entries. *)
Theorem NewSchemaProcessor_nil_table :
  ∀ options : list SchemaProcessorOption,
    match last_Replacements options with
    | None => NewSchemaProcessor options = Panic NilMapAssignment
    | Some m =>
      ∃ s, NewSchemaProcessor options = Ret s
           ∧ replacements s = Some (defaultReplacements ∪ m)
    end.
Proof.
  intros options. apply NewSchemaProcessor_cases.
Qed.

(** C10, counterexample: a call in which an option sets a map and a later
    option sets the nil map panics. *)
Lemma NewSchemaProcessor_map_then_nil :
  NewSchemaProcessor [Replacements (Some ∅); Replacements None] = Panic NilMapAssignment.
Proof. reflexivity. Qed.


(** ** Naming engine: [toCamel] *)

Section ToCamelProperties.
Context `{Env}.





End ToCamelProperties.

Lemma ascending_Permutation n t : Examples.ascending n t ≡ₚ map_to_list t.
Proof. apply merge_sort_Permutation. Qed.

Lemma descending_Permutation n t : Examples.descending n t ≡ₚ map_to_list t.
Proof.
  unfold Examples.descending. rewrite reverse_Permutation' || rewrite <-(ascending_Permutation n t).
  all: try apply ascending_Permutation. all: try (symmetry; apply Permutation_rev).
Qed.



(** ** Emitter *)

Section EmitterProperties.
Context `{Env}.

Lemma is_processed_mark s name m :
  is_processed (mark_processed s name) m = String.eqb m name || is_processed s m.
Proof.
  unfold is_processed, mark_processed. simpl.
  destruct (String.eqb_spec m name) as [->|Hne].
  - destruct (processed s); by rewrite ?lookup_singleton_eq, ?lookup_insert_eq.
  - destruct (processed s); simpl.
    + by rewrite lookup_insert_ne.
    + by rewrite lookup_singleton_ne.
Qed.

Lemma writeGoCode_seen name code σ :
  is_processed (sp σ) name = true → writeGoCode name code σ = (Ret (), σ).
Proof. intros Hs. unfold writeGoCode. by rewrite Hs. Qed.

Lemma writeGoCode_unseen name code σ :
  is_processed (sp σ) name = false →
  writeGoCode name code σ
  = ((write_out (mark_processed (sp σ) name) name code (world σ)).1,
     mkState (mark_processed (sp σ) name)
       (write_out (mark_processed (sp σ) name) name code (world σ)).2 (ranges σ)).
Proof. intros Hs. unfold writeGoCode. rewrite Hs. by destruct (write_out _ _ _ _). Qed.










End EmitterProperties.


(** C5, counterexample: where the file of Foo exists and the processor does
    not overwrite, the first call for the name Foo returns nil and marks the
    name, but nothing is handed to a writer: no file changes and nothing is
    printed, and the second call is a no-op, so the run emits no definition
    for the name Foo. *)
Lemma writeGoCode_existing_file_no_definition :
  is_processed (sp Foo_exists) "Foo" = false
  ∧ (@writeGoCode (Examples.env Examples.ascending) "Foo" "type Foo struct { A int }"
       Foo_exists).1 = Ret ()
  ∧ files (world (@emit_all (Examples.env Examples.ascending)
                    [("Foo", "type Foo struct { A int }");
                     ("Foo", "type Foo struct { A int }")] Foo_exists))
    = {[ "out/Foo.go" := "old" ]}
  ∧ written (world (@emit_all (Examples.env Examples.ascending)
                      [("Foo", "type Foo struct { A int }");
                       ("Foo", "type Foo struct { A int }")] Foo_exists))
    = [].
Proof. vm_compute. done. Qed.

(** ** Strings and sorted keys *)

Lemma append_assoc (a b c : string) : (a +:+ b) +:+ c = a +:+ (b +:+ c).
Proof.
  induction a as [|x a IH]; [reflexivity|].
  change (String x ((a +:+ b) +:+ c) = String x (a +:+ (b +:+ c))). f_equal. exact IH.
Qed.

Lemma append_nil_r (a : string) : a +:+ "" = a.
Proof.
  induction a as [|x a IH]; [reflexivity|].
  change (String x (a +:+ "") = String x a). f_equal. exact IH.
Qed.

Lemma compare_le_trans (a b c : string) :
  String.compare a b ≠ Gt → String.compare b c ≠ Gt → String.compare a c ≠ Gt.
Proof.
  revert b c. induction a as [|x a IH]; intros [|y b] [|z c]; simpl; try done.
  unfold Ascii.compare.
  destruct (N.compare_spec (N_of_ascii x) (N_of_ascii y)) as [Hxy|Hxy|Hxy];
    destruct (N.compare_spec (N_of_ascii y) (N_of_ascii z)) as [Hyz|Hyz|Hyz];
    destruct (N.compare_spec (N_of_ascii x) (N_of_ascii z)) as [Hxz|Hxz|Hxz];
    try done; try lia.
  apply IH.
Qed.

#[global] Instance string_le_trans : Transitive string_le.
Proof.
  intros a b c. unfold string_le, String.leb. intros Hab Hbc.
  pose proof (compare_le_trans a b c) as Ht.
  destruct (String.compare a b), (String.compare b c), (String.compare a c);
    try done; exfalso; by apply Ht.
Qed.

#[global] Instance string_le_total : Total string_le.
Proof. intros a b. apply String.leb_total. Qed.

#[global] Instance string_le_antisym : AntiSymm eq string_le.
Proof. intros a b. apply String.leb_antisym. Qed.

Lemma sort_Strings_spec (l : list string) :
  StronglySorted string_le (sort_Strings l) ∧ sort_Strings l ≡ₚ l.
Proof.
  split; [apply StronglySorted_merge_sort; apply _|apply merge_sort_Permutation].
Qed.

Lemma sorted_keys_spec {V} (m : gmap string V) :
  StronglySorted string_le (sorted_keys m)
  ∧ NoDup (sorted_keys m)
  ∧ (∀ k, k ∈ sorted_keys m ↔ is_Some (m !! k)).
Proof.
  unfold sorted_keys. destruct (sort_Strings_spec (map_to_list m).*1) as [Hs Hp].
  split_and!; [done| |].
  - rewrite Hp. apply NoDup_fst_map_to_list.
  - intros k. rewrite Hp, list_elem_of_fmap. split.
    + intros ([k' v] & -> & Hin). apply elem_of_map_to_list in Hin. by exists v.
    + intros [v Hv]. exists (k, v). split; [done|]. by apply elem_of_map_to_list.
Qed.

(** ** Type synthesizer *)

Section SynthesizerProperties.
Context `{Env}.

Lemma toCamel_Ret str σ : ∃ w n, toCamel str σ = (Ret w, tick n σ).
Proof. unfold toCamel. destruct (replace_suffix _ _); eauto. Qed.

Lemma bind_toCamel_ret str σ : (typeName ← toCamel str; mret typeName) σ = toCamel str σ.
Proof.
  unfold mbind, M_bind. destruct (toCamel_Ret str σ) as (w & n & ->). done.
Qed.

(** C8 (amended): for a node of type object without properties and without
    patternProperties, synthesis returns the open map of string to untyped
    value only when additionalProperties is true; when it is false the
    result is the identifier made from the name of the node, and nothing is
    emitted: the call is the call to toCamel on the name. *)
Theorem processSchema_object_without_shape :
  ∀ (h : heap) (fuel : nat) (schema : Schema) (σ : State),
    Type_ schema = OBJECT →
    Properties schema = None →
    PatternProperties schema = None →
    (AdditionalProperties schema = false →
       processSchema h (S fuel) schema σ = toCamel (Name schema) σ)
    ∧ (AdditionalProperties schema = true →
         ∃ n, processSchema h (S fuel) schema σ = (Ret "map[string]any", tick n σ)).
Proof.
  intros h fuel schema σ Hty Hp Hpp. simpl. rewrite Hty, Hp, Hpp. split; intros ->.
  - apply bind_toCamel_ret.
  - unfold mbind, M_bind. destruct (toCamel_Ret (Name schema) σ) as (w & n & ->).
    by exists n.
Qed.

End SynthesizerProperties.

(** C8, witness: an object titled Foo with additionalProperties false and no
    other keyword synthesizes to Foo. *)
Lemma processSchema_object_without_shape_witness :
  @processSchema (Examples.env Examples.ascending) ∅ 1
    (Examples.node "Foo" OBJECT None "")
    (Examples.start (Examples.new [Stdout_ true; Replacements (Some ∅)]))
  = @toCamel (Examples.env Examples.ascending) "Foo"
      (Examples.start (Examples.new [Stdout_ true; Replacements (Some ∅)])).
Proof.
  apply (@processSchema_object_without_shape (Examples.env Examples.ascending) ∅ 0
           (Examples.node "Foo" OBJECT None "")
           (Examples.start (Examples.new [Stdout_ true; Replacements (Some ∅)]))
           eq_refl eq_refl eq_refl).
  reflexivity.
Defined.

(** C8, counterexample: that object does not synthesize to the open map, and
    no definition of Foo is printed. *)
Lemma processSchema_object_without_shape_not_map :
  let r := @processSchema (Examples.env Examples.ascending) ∅ 1
             (Examples.node "Foo" OBJECT None "")
             (Examples.start (Examples.new [Stdout_ true; Replacements (Some ∅)])) in
  r.1 = Ret "Foo" ∧ r.1 ≠ Ret "map[string]any" ∧ Examples.printed r.2 = [].
Proof. vm_compute. split_and!; [reflexivity|discriminate|reflexivity]. Qed.

(** * Invariants of a run *)

Lemma same_config_refl s : same_config s s.
Proof. by repeat split. Qed.

Lemma same_config_trans s1 s2 s3 :
  same_config s1 s2 → same_config s2 s3 → same_config s1 s3.
Proof.
  unfold same_config. intros (?&?&?&?&?&?&?&?) (?&?&?&?&?&?&?&?).
  split_and!; congruence.
Qed.

Lemma extends_refl σ : extends σ σ.
Proof.
  unfold extends. split_and!; auto using same_config_refl.
Qed.

Lemma extends_trans σ1 σ2 σ3 : extends σ1 σ2 → extends σ2 σ3 → extends σ1 σ3.
Proof.
  intros (Hc1 & Hp1 & Hr1 & Hw1 & Hl1 & Hs1 & Ho1) (Hc2 & Hp2 & Hr2 & Hw2 & Hl2 & Hs2 & Ho2).
  pose proof Hc1 as (_ & _ & Hov & Hso & _).
  unfold extends. split_and!.
  - by eapply same_config_trans.
  - auto.
  - lia.
  - by etrans.
  - by etrans.
  - intros Hs. rewrite Hs2 by congruence. auto.
  - intros Ho file content Hf. apply Ho2; [congruence|]. by apply Ho1.
Qed.

Lemma prints_unformatted_extends σ σ' :
  extends σ σ' → prints_unformatted (sp σ) → prints_unformatted (sp σ').
Proof.
  intros ((_ & _ & _ & Hs & Hf & _) & _) [? ?]. split; congruence.
Qed.

Section RunInvariants.
Context `{Env}.

Lemma tick_extends n σ : extends σ (tick n σ).
Proof.
  unfold extends, tick. simpl. split_and!; auto using same_config_refl; lia.
Qed.

Lemma well_behaved_ret {A} (a : A) : well_behaved (mret a).
Proof. intros σ. split; [apply extends_refl|]. intros _ e. discriminate. Qed.

Lemma well_behaved_fail {A} (o : outcome A) :
  (∀ e, o ≠ Err e) → well_behaved (fail o).
Proof. intros Ho σ. split; [apply extends_refl|]. intros _. apply Ho. Qed.

Lemma well_behaved_bind {A B} (m : M A) (f : A → M B) :
  well_behaved m → (∀ a, well_behaved (f a)) → well_behaved (m ≫= f).
Proof.
  intros Hm Hf σ. unfold mbind, M_bind.
  destruct (Hm σ) as [Hext Herr]. destruct (m σ) as [[a|e|p|] σ'] eqn:Hrun; simpl in *.
  - destruct (Hf a σ') as [Hext' Herr']. split.
    + by eapply extends_trans.
    + intros Hp. apply Herr'. by eapply prints_unformatted_extends.
  - split; [done|]. intros Hp e' ?. by apply (Herr Hp e).
  - split; [done|]. intros _ e'. discriminate.
  - split; [done|]. intros _ e'. discriminate.
Qed.

Lemma well_behaved_forM {A B} (xs : list A) (acc : B) (body : B → A → M B) :
  (∀ acc x, x ∈ xs → well_behaved (body acc x)) → well_behaved (forM xs acc body).
Proof.
  revert acc. induction xs as [|x xs IH]; intros acc Hb; simpl.
  - apply well_behaved_ret.
  - apply well_behaved_bind; [apply Hb; by left|].
    intros acc'. apply IH. intros acc'' y Hy. apply Hb. by right.
Qed.

Lemma well_behaved_get_state : well_behaved get_state.
Proof. intros σ. split; [apply extends_refl|]. intros _ e. discriminate. Qed.

Lemma well_behaved_toCamel str : well_behaved (toCamel str).
Proof.
  intros σ. destruct (toCamel_Ret str σ) as (w & n & ->). simpl.
  split; [apply tick_extends|]. intros _ e. discriminate.
Qed.

Lemma deref_not_Err h p e : deref h p ≠ Err e.
Proof. destruct p as [l|]; simpl; [|done]. by destruct (h !! l). Qed.

Lemma deref_opt_not_Err o e : deref_opt o ≠ Err e.
Proof. by destruct o. Qed.

Lemma deref_all_not_Err h ps e : deref_all h ps ≠ Err e.
Proof.
  induction ps as [|p ps IH]; simpl; [done|].
  pose proof (deref_not_Err h p) as Hd. destruct (deref h p) as [s| | |]; try done.
  - destruct (deref_all h ps); try done. 
  - by specialize (Hd e0).
Qed.

Lemma mark_processed_config s name : same_config s (mark_processed s name).
Proof. by repeat split. Qed.

Lemma write_out_world s name code w :
  let r := write_out s name code w in
  written w `prefix_of` written r.2
  ∧ logged w `prefix_of` logged r.2
  ∧ (stdout s = true → files r.2 = files w)
  ∧ (overwrite s = false →
     ∀ file content, files w !! file = Some content → files r.2 !! file = Some content)
  ∧ (prints_unformatted s → ∀ e, r.1 ≠ Err e).
Proof.
  assert (∀ A (l k : list A), l `prefix_of` l ++ k) as Hpre.
  { intros A l k. by apply prefix_app_r. }
  unfold write_out. destruct (stdout s) eqn:Hout.
  - destruct (format s) eqn:Hfmt.
    + destruct (exec_gofmt code); simpl; split_and!; try done; try apply Hpre;
        intros [? ?]; congruence.
    + simpl. split_and!; try done; try apply Hpre.
  - set (file := path_Join _ _).
    destruct (negb (overwrite s) && bool_decide (is_Some (files w !! file))) eqn:Hskip.
    { simpl. split_and!; try done; try apply Hpre; intros [? ?]; congruence. }
    assert (overwrite s = false → ∀ f c, files w !! f = Some c → f ≠ file) as Hne.
    { intros Hov f c Hf ->. rewrite Hov in Hskip. simpl in Hskip.
      apply bool_decide_eq_false in Hskip. apply Hskip. by exists c. }
    destruct (os_OpenFile_fails file).
    { simpl. split_and!; try done; intros [? ?]; congruence. }
    destruct (format s); [destruct (exec_gofmt _)|]; simpl;
      (split_and!; try done; try apply Hpre; try (intros [? ?]; congruence));
      intros Hov f c Hf; specialize (Hne Hov f c Hf);
      rewrite ?lookup_insert_ne by done; done.
Qed.

Lemma well_behaved_writeGoCode name code : well_behaved (writeGoCode name code).
Proof.
  intros σ. destruct (is_processed (sp σ) name) eqn:Hs.
  - rewrite writeGoCode_seen by done. split; [apply extends_refl|]. intros _ e. discriminate.
  - rewrite writeGoCode_unseen by done. simpl.
    destruct (write_out_world (mark_processed (sp σ) name) name code (world σ))
      as (Hw & Hl & Hso & Hov & Herr).
    split.
    + unfold extends. simpl. split_and!; try done; try lia.
      intros m Hm. rewrite is_processed_mark, Hm. apply orb_true_r.
    + intros Hp. apply Herr. destruct Hp. by split.
Qed.

Lemma well_behaved_deref {A} h p (f : Schema → M A) :
  (∀ s, well_behaved (f s)) → well_behaved (s ← fail (deref h p); f s).
Proof.
  intros Hf. apply well_behaved_bind; [|done].
  apply well_behaved_fail. intros e. apply deref_not_Err.
Qed.

Lemma well_behaved_fields_loop rec props typeData :
  (∀ p, well_behaved (rec p)) → well_behaved (fields_loop rec props typeData).
Proof.
  intros Hrec. apply well_behaved_forM. intros acc k _.
  apply well_behaved_bind; [apply Hrec|]. intros sub.
  apply well_behaved_bind; [apply well_behaved_toCamel|]. intros fn.
  apply well_behaved_ret.
Qed.

Lemma well_behaved_merge_many h rec parent schemas :
  (∀ s, well_behaved (rec s)) → well_behaved (merge_many h rec parent schemas).
Proof.
  intros Hrec. unfold merge_many.
  destruct (split_properties _ _ _) as [merged uncommonSchemas].
  apply well_behaved_bind; [apply well_behaved_toCamel|]. intros typeName.
  apply well_behaved_bind; [apply well_behaved_get_state|]. intros σ0.
  apply well_behaved_bind.
  { apply well_behaved_fields_loop. intros p. by apply well_behaved_deref. }
  intros typeData. apply well_behaved_bind.
  { apply well_behaved_forM. intros acc k _.
    apply well_behaved_bind.
    { apply well_behaved_fail. intros e. apply deref_opt_not_Err. }
    intros u. apply well_behaved_bind; [apply Hrec|]. intros ty.
    apply well_behaved_bind; [apply well_behaved_toCamel|]. intros fn.
    apply well_behaved_ret. }
  intros typeData'. apply well_behaved_bind; [apply well_behaved_writeGoCode|].
  intros _. apply well_behaved_ret.
Qed.

Lemma well_behaved_mergeSchemas_with h rec parent schemas :
  schemas ≠ [] →
  (∀ s, well_behaved (rec s)) → well_behaved (mergeSchemas_with h rec parent schemas).
Proof.
  intros Hne Hrec. unfold mergeSchemas_with.
  destruct schemas as [|p [|q ps]]; [done| |].
  - by apply well_behaved_deref.
  - apply well_behaved_bind.
    { apply well_behaved_fail. intros e. apply deref_all_not_Err. }
    intros alts. by apply well_behaved_merge_many.
Qed.

Lemma well_behaved_processSchema h fuel schema :
  well_behaved (processSchema h fuel schema).
Proof.
  revert schema. induction fuel as [|fuel IH]; intros schema.
  { simpl. by apply well_behaved_fail. }
  assert (∀ p, well_behaved (s ← fail (deref h p); processSchema h fuel s)) as Hptr.
  { intros p. by apply well_behaved_deref. }
  simpl. destruct (Type_ schema); try apply well_behaved_ret.
  - (* ANY *)
    case_bool_decide as Hlen.
    { apply well_behaved_mergeSchemas_with; [|done].
      intros Hnil. rewrite Hnil in Hlen. simpl in Hlen. lia. }
    destruct (negb _); [apply well_behaved_ret|].
    case_bool_decide; apply well_behaved_ret.
  - (* ARRAY *)
    apply well_behaved_bind; [apply Hptr|]. intros sub.
    apply well_behaved_bind; [apply well_behaved_toCamel|]. intros typeName.
    destruct (negb _); [|apply well_behaved_ret].
    apply well_behaved_bind; [apply well_behaved_get_state|]. intros σ0.
    apply well_behaved_bind; [apply well_behaved_writeGoCode|]. intros _.
    apply well_behaved_ret.
  - (* OBJECT *)
    apply well_behaved_bind; [apply well_behaved_toCamel|]. intros typeName.
    destruct (Properties schema) as [props|].
    { apply well_behaved_bind; [apply well_behaved_get_state|]. intros σ0.
      apply well_behaved_bind; [by apply well_behaved_fields_loop|]. intros typeData.
      apply well_behaved_bind; [apply well_behaved_writeGoCode|]. intros _.
      apply well_behaved_ret. }
    destruct (PatternProperties schema) as [pats|].
    { apply well_behaved_forM. intros acc k _.
      apply well_behaved_bind; [apply Hptr|]. intros sub.
      destruct (String.eqb _ _); [|apply well_behaved_ret].
      apply well_behaved_bind; [apply well_behaved_get_state|]. intros σ0.
      apply well_behaved_bind; [apply well_behaved_writeGoCode|]. intros _.
      apply well_behaved_ret. }
    destruct (AdditionalProperties schema); apply well_behaved_ret.
Qed.

(** X1: synthesis never changes the configuration of the processor, never
    removes a name from the registry, and only appends to what was written
    to the streams and to the log. *)
Theorem processSchema_keeps_configuration_and_registry :
  ∀ (h : heap) (fuel : nat) (schema : Schema) (σ : State),
    let σ' := (processSchema h fuel schema σ).2 in
    same_config (sp σ) (sp σ')
    ∧ (∀ name, is_processed (sp σ) name = true → is_processed (sp σ') name = true)
    ∧ written (world σ) `prefix_of` written (world σ')
    ∧ logged (world σ) `prefix_of` logged (world σ').
Proof.
  intros h fuel schema σ σ'.
  destruct (well_behaved_processSchema h fuel schema σ) as [(?&?&?&?&?&?&?) _].
  done.
Qed.

(** X2: a processor that does not overwrite leaves every file that exists
    before synthesis with the content it had. *)
Theorem processSchema_keeps_existing_files :
  ∀ (h : heap) (fuel : nat) (schema : Schema) (σ : State) (file content : string),
    overwrite (sp σ) = false →
    files (world σ) !! file = Some content →
    files (world (processSchema h fuel schema σ).2) !! file = Some content.
Proof.
  intros h fuel schema σ file content Hov Hf.
  destruct (well_behaved_processSchema h fuel schema σ) as [(_&_&_&_&_&_&Hkeep) _].
  by apply Hkeep.
Qed.

(** X3: a processor that prints to the standard output writes no file, and
    when it does not run gofmt either, synthesis returns no error: it
    returns a type, or panics. *)
Theorem processSchema_stdout_no_file_no_error :
  ∀ (h : heap) (fuel : nat) (schema : Schema) (σ : State),
    stdout (sp σ) = true →
    files (world (processSchema h fuel schema σ).2) = files (world σ)
    ∧ (format (sp σ) = false → ∀ e, (processSchema h fuel schema σ).1 ≠ Err e).
Proof.
  intros h fuel schema σ Hout.
  destruct (well_behaved_processSchema h fuel schema σ) as [(_&_&_&_&_&Hfiles&_) Herr].
  split; [by apply Hfiles|]. intros Hfmt. apply Herr. by split.
Qed.

End RunInvariants.

(** ** Processing a list of files *)

Section ProcessProperties.
Context `{Env} `{Input}.

(** X4: Process on a list of files followed by another is Process on the
    first list and, only when that returns nil, Process on the second list
    from the state reached; a failure in the first list is the result, and
    the files after it are not read. *)
Theorem Process_app :
  ∀ (fuel : nat) (files1 files2 : list string) (σ : State),
    Process fuel (files1 ++ files2) σ
    = match Process fuel files1 σ with
      | (Finished, σ') => Process fuel files2 σ'
      | r => r
      end.
Proof.
  intros fuel files1 files2. induction files1 as [|file rest IH]; intros σ; [done|].
  simpl. destruct (read_input file (world σ)); try done.
  destruct (ParseSchema_bytes fuel b) as [[[h schema]| | |]|]; try done.
  destruct (processSchema_ptr h fuel (Some schema) σ) as [[ty| | |] σ']; try done.
Qed.

Lemma well_behaved_processSchema_ptr h fuel p :
  well_behaved (processSchema_ptr h fuel p).
Proof.
  unfold processSchema_ptr. apply well_behaved_deref. intros s.
  apply well_behaved_processSchema.
Qed.

Lemma Process_extends fuel files σ : extends σ (Process fuel files σ).2.
Proof.
  revert σ. induction files as [|file rest IH]; intros σ; simpl.
  { apply extends_refl. }
  destruct (read_input file (world σ)); try apply extends_refl.
  destruct (ParseSchema_bytes fuel b) as [[[h schema]| | |]|]; try apply extends_refl.
  destruct (well_behaved_processSchema_ptr h fuel (Some schema) σ) as [Hext _].
  destruct (processSchema_ptr h fuel (Some schema) σ) as [[ty| | |] σ']; simpl in *; try done.
  eapply extends_trans; [done|apply IH].
Qed.

(** X5: over a whole run of Process, the names emitted for one file stay in
    the registry for the files after it, the configuration stays, and a
    processor that does not overwrite leaves the files that exist at the
    start with their content. *)
Theorem Process_keeps_registry_and_files :
  ∀ (fuel : nat) (files_ : list string) (σ : State),
    let σ' := (Process fuel files_ σ).2 in
    same_config (sp σ) (sp σ')
    ∧ (∀ name, is_processed (sp σ) name = true → is_processed (sp σ') name = true)
    ∧ (overwrite (sp σ) = false →
       ∀ file content, files (world σ) !! file = Some content →
                       files (world σ') !! file = Some content).
Proof.
  intros fuel files_ σ σ'.
  destruct (Process_extends fuel files_ σ) as (?&?&?&?&?&?&?). done.
Qed.

End ProcessProperties.

(** ** The resolver returns no error value *)

Lemma no_error_bind {A B} (o : outcome A) (f : A → outcome B) :
  no_error o → (∀ a, no_error (f a)) → no_error (o ≫= f).
Proof.
  intros Ho Hf. destruct o as [a|e| |]; simpl; [apply Hf| |done|done].
  by specialize (Ho e).
Qed.

Lemma no_error_deref h p : no_error (deref h p).
Proof. intros e. apply deref_not_Err. Qed.

Lemma no_error_store h p s : no_error (store h p s).
Proof. by destruct p. Qed.

Lemma no_error_Ret {A} (a : A) : no_error (Ret a).
Proof. done. Qed.

Lemma no_error_raw_walk cursor path : no_error (raw_walk cursor path).
Proof.
  revert cursor. induction path as [|part rest IH]; intros cursor; simpl; [done|].
  destruct (String.eqb part "#"); [apply IH|].
  destruct cursor; try done. destruct (m !! part); [apply IH|done].
Qed.

Lemma no_error_for_heap {A} (xs : list A) h (body : A → heap → outcome heap) :
  (∀ x h, no_error (body x h)) → no_error (for_heap xs h body).
Proof.
  intros Hb. revert h. induction xs as [|x xs IH]; intros h; simpl; [done|].
  apply no_error_bind; [apply Hb|]. intros h'. apply IH.
Qed.

Section ResolverProperties.
Context `{Env}.

Lemma no_error_raw_fallback rec root schemaPath part h :
  (∀ p h, no_error (rec p h)) → no_error (raw_fallback rec root schemaPath part h).
Proof.
  intros Hrec. unfold raw_fallback.
  apply no_error_bind; [apply no_error_deref|]. intros r.
  apply no_error_bind; [apply no_error_raw_walk|]. intros cursor.
  destruct (json_reparse cursor h) as [[refSchema h']|]; [|done].
  apply no_error_bind; [apply Hrec|]. intros h''.
  apply no_error_bind; [apply no_error_deref|]. intros n.
  apply no_error_bind; [|done].
  destruct (String.eqb _ _); [apply no_error_store|done].
Qed.

Lemma no_error_ref_step rec root schemaPath part c h :
  (∀ p h, no_error (rec p h)) → no_error (ref_step rec root schemaPath part c h).
Proof.
  intros Hrec. unfold ref_step.
  assert (no_error (ctx_schema h c)) as Hctx.
  { destruct c; simpl; [apply no_error_deref|done]. }
  repeat (destruct (String.eqb part _);
          [first [done | apply no_error_bind; [apply Hctx|done]]|]).
  destruct c as [p|[cast|]]; try by apply no_error_raw_fallback.
  destruct (cast !! part); [done|by apply no_error_raw_fallback].
Qed.

Lemma no_error_ref_walk rec root schemaPath parts c h :
  (∀ p h, no_error (rec p h)) → no_error (ref_walk rec root schemaPath parts c h).
Proof.
  intros Hrec. revert c h. induction parts as [|part rest IH]; intros c h; simpl; [done|].
  apply no_error_bind; [by apply no_error_ref_step|]. intros [c' h']. apply IH.
Qed.

Lemma no_error_resolve_ref rec root schema h :
  (∀ p h, no_error (rec p h)) → no_error (resolve_ref rec root schema h).
Proof.
  intros Hrec. unfold resolve_ref.
  apply no_error_bind; [apply no_error_deref|]. intros n.
  destruct (negb _); [|done].
  apply no_error_bind; [by apply no_error_ref_walk|]. intros [c h'].
  destruct c; [|done].
  apply no_error_bind; [apply no_error_deref|]. intros target. apply no_error_store.
Qed.

Lemma no_error_setRoot fuel root schema h : no_error (setRoot fuel root schema h).
Proof.
  revert schema h. induction fuel as [|fuel IH]; intros schema h; simpl; [done|].
  apply no_error_bind; [apply no_error_deref|]. intros n.
  apply no_error_bind; [apply no_error_store|]. intros h1.
  apply no_error_bind; [apply no_error_deref|]. intros n1.
  apply no_error_bind.
  { destruct (Properties n1); [|done]. apply no_error_for_heap. intros [k v] h'.
    apply no_error_bind; [apply IH|]. intros h''.
    apply no_error_bind; [apply no_error_deref|]. intros nv.
    destruct (String.eqb _ _); [apply no_error_store|done]. }
  intros h2. apply no_error_bind; [apply no_error_deref|]. intros n2.
  apply no_error_bind.
  { destruct (PatternProperties n2); [|done]. apply no_error_for_heap.
    intros [k v] h'. apply IH. }
  intros h3. apply no_error_bind; [apply no_error_deref|]. intros n3.
  apply no_error_bind; [destruct (Items n3); [apply IH|done]|].
  intros h4. apply no_error_bind; [apply no_error_deref|]. intros n4.
  apply no_error_bind; [apply no_error_for_heap; intros; apply IH|].
  intros h5. apply no_error_resolve_ref. intros p h'. apply IH.
Qed.

Lemma ParseSchema_returns_or_panics :
  ∀ (fuel : nat) (h : heap) (schema : loc) (rawdoc : gmap string json) (root p : ptr),
    no_error (setRoot fuel root p h) ∧ no_error (ParseSchema fuel h schema rawdoc).
Proof.
  intros fuel h schema rawdoc root p. split; [apply no_error_setRoot|].
  unfold ParseSchema.
  apply no_error_bind; [apply no_error_deref|]. intros n.
  apply no_error_bind; [apply no_error_store|]. intros h'. apply no_error_setRoot.
Qed.

End ResolverProperties.

Section ProcessFailures.
Context `{Env} `{Input}.

(** X6: when the processor prints to the standard output without gofmt, the
    only errors Process returns are those of reading and of decoding a
    file: no error comes from resolution or synthesis. *)
Theorem Process_stdout_failures :
  ∀ (fuel : nat) (files_ : list string) (σ : State),
    stdout (sp σ) = true → format (sp σ) = false →
    ∀ e, (Process fuel files_ σ).1 ≠ Failed (SynthesisError e).
Proof.
  intros fuel files_. induction files_ as [|file rest IH]; intros σ Hout Hfmt e; simpl.
  { done. }
  destruct (read_input file (world σ)); try done.
  unfold ParseSchema_bytes.
  destruct (json_Unmarshal_Schema b) as [[h schema]|]; [|done].
  destruct (json_Unmarshal_raw b) as [rawdoc|]; [|done].
  pose proof (no_error_setRoot fuel (Some schema) (Some schema)) as Hset.
  unfold ParseSchema. destruct (deref h (Some schema)) as [n| | |] eqn:Hd; simpl; try done.
  { specialize (Hset (<[schema:=set_raw (Some rawdoc) n]> h)).
    destruct (setRoot fuel _ _ _) as [h'|e'| |]; simpl; try done.
    - destruct (well_behaved_processSchema_ptr h' fuel (Some schema) σ) as [Hext Herr].
      destruct (processSchema_ptr h' fuel (Some schema) σ) as [[ty|e'| |] σ'] eqn:Hrun;
        simpl in *; try done.
      + apply IH.
        * destruct Hext as ((_&_&_&Hs&_)&_). congruence.
        * destruct Hext as ((_&_&_&_&Hf&_)&_). congruence.
      + exfalso. by apply (Herr (conj Hout Hfmt) e').
    - exfalso. by apply (Hset e'). }
  exfalso. by apply (deref_not_Err h (Some schema) e0).
Qed.

End ProcessFailures.

(** X2, witness: in file mode without overwrite, the file Foo.go that exists
    keeps its content when the type Foo is synthesized. *)
Lemma processSchema_keeps_existing_files_witness :
  files (world (@processSchema (Examples.env Examples.ascending) ∅ 1
                  (Examples.node "Foo" OBJECT (Some []) "")
                  (mkState (Examples.new [Replacements (Some ∅)])
                     (mkWorld [] {[ "/Foo.go" := "old" ]} []) 0)).2)
    !! "/Foo.go" = Some "old".
Proof.
  apply (@processSchema_keeps_existing_files (Examples.env Examples.ascending)).
  - reflexivity.
  - vm_compute. reflexivity.
Defined.

(** X3, witness: a processor that prints an object with one property to the
    standard output writes no file and returns no error. *)
Lemma processSchema_stdout_no_file_no_error_witness :
  let r := @processSchema (Examples.env Examples.ascending)
             {[ 1%nat := Examples.node "" STRING None "" ]} 2
             (Examples.node "Foo" OBJECT (Some [("x", 1%nat)]) "")
             (Examples.start (Examples.new [Stdout_ true; Replacements (Some ∅)])) in
  files (world r.2) = ∅ ∧ ∀ e, r.1 ≠ Err e.
Proof.
  intros r.
  assert (stdout (sp (Examples.start (Examples.new [Stdout_ true; Replacements (Some ∅)])))
          = true) as Hout by (vm_compute; reflexivity).
  assert (format (sp (Examples.start (Examples.new [Stdout_ true; Replacements (Some ∅)])))
          = false) as Hfmt by (vm_compute; reflexivity).
  destruct (@processSchema_stdout_no_file_no_error (Examples.env Examples.ascending)
              {[ 1%nat := Examples.node "" STRING None "" ]} 2
              (Examples.node "Foo" OBJECT (Some [("x", 1%nat)]) "")
              (Examples.start (Examples.new [Stdout_ true; Replacements (Some ∅)]))
              Hout) as [Hf He].
  split; [exact Hf|exact (He Hfmt)].
Defined.

(** X6, witness: two files holding an object with one property are processed
    by a processor that prints to the standard output. *)
Lemma Process_stdout_failures_witness :
  ¬ ∃ e,
      (@Process (Examples.env Examples.ascending)
         (ExamplesMore.fixed_input
            {[ 0%nat := Examples.node "Foo" OBJECT (Some [("x", 1%nat)]) "";
               1%nat := Examples.node "" STRING None "" ]} 0%nat)
         5 ["a.json"; "b.json"]
         (Examples.start (Examples.new [Stdout_ true; Replacements (Some ∅)]))).1
      = Failed (SynthesisError e).
Proof.
  assert (stdout (sp (Examples.start (Examples.new [Stdout_ true; Replacements (Some ∅)])))
          = true) as Hout by (vm_compute; reflexivity).
  assert (format (sp (Examples.start (Examples.new [Stdout_ true; Replacements (Some ∅)])))
          = false) as Hfmt by (vm_compute; reflexivity).
  intros [e He].
  exact (@Process_stdout_failures (Examples.env Examples.ascending)
           (ExamplesMore.fixed_input
              {[ 0%nat := Examples.node "Foo" OBJECT (Some [("x", 1%nat)]) "";
                 1%nat := Examples.node "" STRING None "" ]} 0%nat)
           5 ["a.json"; "b.json"]
           (Examples.start (Examples.new [Stdout_ true; Replacements (Some ∅)]))
           Hout Hfmt e He).
Defined.

(** ** Schema types and their names *)

Lemma SchemaTypes_lookup_String t :
  SchemaTypes !! SchemaType_String t = if decide (t = ANY) then None else Some t.
Proof. destruct t; vm_compute; reflexivity. Qed.

Lemma SchemaTypes_lookup_inv name t :
  SchemaTypes !! name = Some t → SchemaType_String t = name.
Proof.
  intros Hl. apply elem_of_list_to_map_2 in Hl.
  repeat (apply elem_of_cons in Hl as [Heq|Hl]; [by injection Heq as -> ->|]).
  by apply elem_of_nil in Hl.
Qed.

(** X7: the table of the type names and SchemaType.String are inverse of
    each other on the seven named types, and any is no key of the table.
    Hence, with a decoder of string literals that reads back a name written
    between quotes, UnmarshalJSON of what MarshalJSON writes for a type gives
    that type back, except for ANY, whose text is refused as an unknown schema
    type. *)
Theorem SchemaType_json_round_trip :
  ∀ unmarshal_string : string → option string,
    (∀ t, unmarshal_string (dq +:+ SchemaType_String t +:+ dq)
          = Some (SchemaType_String t)) →
    (∀ t, ∃ b, SchemaType_MarshalJSON t = inl b
               ∧ SchemaType_UnmarshalJSON unmarshal_string b
                 = if decide (t = ANY) then inr (UnknownSchemaType "any") else inl t)
    ∧ (∀ name t, SchemaTypes !! name = Some t ↔ (SchemaType_String t = name ∧ t ≠ ANY)).
Proof.
  intros unmarshal_string Hdec. split.
  - intros t. exists (dq +:+ SchemaType_String t +:+ dq). split.
    + by destruct t.
    + unfold SchemaType_UnmarshalJSON. rewrite Hdec, SchemaTypes_lookup_String.
      by destruct t.
  - intros name t. split.
    + intros Hl. split; [by apply SchemaTypes_lookup_inv|].
      intros ->. pose proof (SchemaTypes_lookup_inv _ _ Hl) as <-.
      vm_compute in Hl. discriminate Hl.
    + intros [<- Hne]. rewrite SchemaTypes_lookup_String. by destruct t.
Qed.

(** X7, witness: the decoder that strips the two quotes. *)
Lemma SchemaType_json_round_trip_witness :
  ∃ b, SchemaType_MarshalJSON OBJECT = inl b
       ∧ SchemaType_UnmarshalJSON ExamplesMore.unquote b = inl OBJECT.
Proof.
  assert (∀ t, ExamplesMore.unquote (dq +:+ SchemaType_String t +:+ dq)
               = Some (SchemaType_String t)) as Hdec.
  { intros t. destruct t; vm_compute; reflexivity. }
  destruct (SchemaType_json_round_trip ExamplesMore.unquote Hdec) as [Hrt _].
  exact (Hrt OBJECT).
Defined.

(** ** The command line *)

Lemma Count_app a b c : Flag.Count (a +:+ b) c = (Flag.Count a c + Flag.Count b c)%nat.
Proof.
  induction a as [|x a IH]; [reflexivity|].
  change (Flag.Count (String x (a +:+ b)) c
          = (Flag.Count (String x a) c + Flag.Count b c)%nat).
  simpl. rewrite IH. lia.
Qed.

Lemma TrimLeft_length s q : (String.length (Flag.TrimLeft s q) ≤ String.length s)%nat.
Proof.
  induction s as [|c s IH]; simpl; [lia|]. destruct (Ascii.eqb c q); simpl; lia.
Qed.

Lemma TrimLeft_fixed_app k rest q x :
  Flag.TrimLeft k q = k → Ascii.eqb x q = false →
  Flag.TrimLeft (k +:+ String x rest) q = k +:+ String x rest.
Proof.
  intros Hk Hx. destruct k as [|c k]; simpl.
  - by rewrite Hx.
  - simpl in Hk. destruct (Ascii.eqb c q) eqn:Hc; [|done].
    pose proof (TrimLeft_length k q) as Hlen. rewrite Hk in Hlen. simpl in Hlen. lia.
Qed.

Lemma TrimRight_snoc a q : Flag.TrimRight (a +:+ String q "") q = Flag.TrimRight a q.
Proof.
  induction a as [|c a IH].
  - simpl. by rewrite Ascii.eqb_refl.
  - change (Flag.TrimRight (String c (a +:+ String q "")) q
            = Flag.TrimRight (String c a) q).
    simpl. by rewrite IH.
Qed.

Lemma TrimRight_fixed_head v q x :
  Flag.TrimRight v q = v → Ascii.eqb x q = false →
  Flag.TrimRight (String x v) q = String x v.
Proof. intros Hv Hx. simpl. rewrite Hv. destruct v; [by rewrite Hx|done]. Qed.

Lemma TrimRight_fixed_app a b q :
  Flag.TrimRight b q = b → b ≠ "" → Flag.TrimRight (a +:+ b) q = a +:+ b.
Proof.
  intros Hb Hne. induction a as [|c a IH]; [done|].
  change (Flag.TrimRight (String c (a +:+ b)) q = String c (a +:+ b)).
  simpl. rewrite IH. destruct (a +:+ b) eqn:E; [|done].
  exfalso. destruct a as [|y a]; [by apply Hne|].
  change (String y (a +:+ b) = "") in E. discriminate E.
Qed.

Lemma SplitN2_first k v c :
  Flag.Count k c = 0%nat → Flag.SplitN2 (k +:+ String c v) c = [k; v].
Proof.
  induction k as [|x k IH]; intros Hk.
  - simpl. by rewrite Ascii.eqb_refl.
  - change (Flag.SplitN2 (String x (k +:+ String c v)) c = [String x k; v]).
    simpl in *. destruct (Ascii.eqb x c); [lia|]. by rewrite IH by lia.
Qed.

(** X8: the flag of the replacements given one pair key=value, bare or
    between quotes, sets the table to that single entry, whatever it held
    before; the key is the text before the equals sign and the value the
    text after it.  The key and the value hold no equals sign, the key does
    not start and the value does not end with a quote. *)
Theorem Set_single_pair :
  ∀ (csv_Read : string → option (list string)) (k v : string),
    Flag.Count k "=" = 0%nat → Flag.Count v "=" = 0%nat →
    Flag.TrimLeft k (ascii_of_nat 34) = k → Flag.TrimRight v (ascii_of_nat 34) = v →
    Flag.Set_ csv_Read (k +:+ "=" +:+ v) = inl {[ k := v ]}
    ∧ Flag.Set_ csv_Read (dq +:+ k +:+ "=" +:+ v +:+ dq) = inl {[ k := v ]}.
Proof.
  intros csv k v Hk Hv Hkq Hvq.
  assert (Flag.TrimRight (k +:+ "=" +:+ v) (ascii_of_nat 34) = k +:+ "=" +:+ v) as Hright.
  { change (k +:+ "=" +:+ v) with (k +:+ String "="%char v).
    apply TrimRight_fixed_app; [by apply TrimRight_fixed_head|done]. }
  assert (Flag.Trim (k +:+ "=" +:+ v) (ascii_of_nat 34) = k +:+ "=" +:+ v) as Htrim.
  { unfold Flag.Trim. change (k +:+ "=" +:+ v) with (k +:+ String "="%char v).
    rewrite TrimLeft_fixed_app by done. apply Hright. }
  assert (Flag.fill [k +:+ "=" +:+ v] ∅ = inl ({[ k := v ]} : gmap string string)) as Hfill.
  { simpl. change (k +:+ "=" +:+ v) with (k +:+ String "="%char v).
    rewrite SplitN2_first by done. by rewrite insert_empty. }
  split.
  - unfold Flag.Set_. change (k +:+ "=" +:+ v) with (k +:+ String "="%char v) at 1.
    rewrite Count_app. simpl. rewrite Hk, Hv. simpl. by rewrite Htrim.
  - unfold Flag.Set_.
    assert (Flag.Count (dq +:+ k +:+ "=" +:+ v +:+ dq) "=" = 1%nat) as ->.
    { change (dq +:+ k +:+ "=" +:+ v +:+ dq)
        with (String (ascii_of_nat 34) (k +:+ String "="%char (v +:+ dq))).
      simpl. rewrite Count_app. simpl. rewrite Count_app, Hk, Hv. done. }
    assert (Flag.Trim (dq +:+ k +:+ "=" +:+ v +:+ dq) (ascii_of_nat 34)
            = k +:+ "=" +:+ v) as ->; [|done].
    unfold Flag.Trim.
    change (dq +:+ k +:+ "=" +:+ v +:+ dq)
      with (String (ascii_of_nat 34) (k +:+ String "="%char (v +:+ dq))).
    simpl. rewrite TrimLeft_fixed_app by done.
    change (k +:+ String "="%char (v +:+ dq))
      with (k +:+ ("=" +:+ (v +:+ String (ascii_of_nat 34) ""))).
    rewrite <-!append_assoc. rewrite TrimRight_snoc. rewrite append_assoc.
    apply Hright.
Qed.

(** X8, witness: the pair Id=ID. *)
Lemma Set_single_pair_witness :
  Flag.Set_ (λ _, None) "Id=ID" = inl {[ "Id" := "ID" ]}
  ∧ Flag.Set_ (λ _, None) (dq +:+ "Id=ID" +:+ dq) = inl {[ "Id" := "ID" ]}.
Proof.
  exact (Set_single_pair (λ _, None) "Id" "ID" eq_refl eq_refl eq_refl eq_refl).
Defined.

(** X9: the constructor returns on the options the command line builds,
    whatever the flags: the processor holds the values of the flags, the
    table of the flag overridden by the built-in entries, and an empty
    registry. *)
Theorem runMain_constructor_returns :
  ∀ (dir pkg : string) (ow so fm cm : bool) (io : Stdio) (r : gmap string string),
    NewSchemaProcessor (Flag.runMain_options dir pkg ow so fm cm io r)
    = Ret (mkSchemaProcessor dir pkg ow so fm cm io (Some (defaultReplacements ∪ r)) None).
Proof.
  intros. unfold NewSchemaProcessor, Flag.runMain_options. simpl.
  rewrite assign_all_some by apply NoDup_fst_map_to_list.
  by rewrite list_to_map_to_list.
Qed.

(** X10: two options that set different fields can be given in either
    order, and of two options that set the same field the later one
    counts. *)
Theorem apply_option_order :
  ∀ (o1 o2 : SchemaProcessorOption) (s : SchemaProcessor),
    apply_option o2 (apply_option o1 s)
    = if decide (option_field o1 = option_field o2) then apply_option o2 s
      else apply_option o1 (apply_option o2 s).
Proof. intros [] [] s; reflexivity. Qed.

(** ** The walk of the raw document *)


(** ** Synthesis: edge cases *)

Section SynthesisEdges.
Context `{Env}.

(** X12: a schema of type array without items makes synthesis panic on a
    nil pointer, before anything is named or written. *)
Theorem processSchema_array_without_items :
  ∀ (h : heap) (fuel : nat) (schema : Schema) (σ : State),
    Type_ schema = ARRAY → Items schema = None →
    processSchema h (S fuel) schema σ = (Panic NilDereference, σ).
Proof. intros h fuel schema σ Hty Hit. simpl. rewrite Hty, Hit. reflexivity. Qed.

Lemma replace_prefixes_none word kvs :
  Forall (λ kv, HasPrefix word kv.1 = false) kvs → replace_prefixes word kvs = word.
Proof.
  induction 1 as [|[k v] kvs Hk _ IH]; simpl; [done|]. simpl in Hk. by rewrite Hk.
Qed.

Lemma replace_suffix_none word kvs :
  Forall (λ kv, HasSuffix word kv.1 = false) kvs → replace_suffix word kvs = None.
Proof.
  induction 1 as [|[k v] kvs Hk _ IH]; simpl; [done|]. simpl in Hk. by rewrite Hk.
Qed.

(** X13: when no key of the table is a suffix or a prefix of the word
    strcase.ToCamel returns, toCamel returns that word, in every order of
    iteration; this is the case of every word for a nil or empty table. *)
Theorem toCamel_without_match :
  ∀ (str : string) (σ : State),
    (∀ n t, range_replacements n t ≡ₚ map_to_list t) →
    (∀ k v, default ∅ (replacements (sp σ)) !! k = Some v →
            HasSuffix (strcase_ToCamel str) k = false
            ∧ HasPrefix (strcase_ToCamel str) k = false) →
    toCamel str σ = (Ret (strcase_ToCamel str), tick 2 σ).
Proof.
  intros str σ Hperm Hno. unfold toCamel.
  rewrite replace_suffix_none, replace_prefixes_none; [done| |].
  - apply Forall_forall. intros [k v] Hin. rewrite Hperm in Hin.
    apply elem_of_map_to_list in Hin. by apply Hno in Hin as [_ ?].
  - apply Forall_forall. intros [k v] Hin. rewrite Hperm in Hin.
    apply elem_of_map_to_list in Hin. by apply Hno in Hin as [? _].
Qed.

End SynthesisEdges.

(** X12, witness: the schema with the single keyword type set to array. *)
Lemma processSchema_array_without_items_witness :
  @processSchema (Examples.env Examples.ascending) ∅ 1
    (Examples.node "" ARRAY None "")
    (Examples.start (Examples.new [Stdout_ true; Replacements (Some ∅)]))
  = (Panic NilDereference,
     Examples.start (Examples.new [Stdout_ true; Replacements (Some ∅)])).
Proof.
  exact (@processSchema_array_without_items (Examples.env Examples.ascending) ∅ 0
           (Examples.node "" ARRAY None "")
           (Examples.start (Examples.new [Stdout_ true; Replacements (Some ∅)]))
           eq_refl eq_refl).
Defined.

(** X13, witness: a processor whose table is nil. *)
Lemma toCamel_without_match_witness :
  @toCamel (Examples.env Examples.ascending) "user_name"
    (Examples.start (mkSchemaProcessor "" "" false true false false
                       (mkStdio os_Stdin os_Stdout os_Stderr) None None))
  = (Ret "UserName",
     @tick 2 (Examples.start (mkSchemaProcessor "" "" false true false false
                                (mkStdio os_Stdin os_Stdout os_Stderr) None None))).
Proof.
  apply (@toCamel_without_match (Examples.env Examples.ascending) "user_name").
  - apply ascending_Permutation.
  - intros k v Hkv. simpl in Hkv. rewrite lookup_empty in Hkv. discriminate Hkv.
Defined.

(** ** What resolution keeps *)

Lemma same_keywords_refl n : same_keywords n n.
Proof. by repeat split. Qed.

Lemma same_keywords_trans n1 n2 n3 :
  same_keywords n1 n2 → same_keywords n2 n3 → same_keywords n1 n3.
Proof.
  unfold same_keywords. intros (?&?&?&?&?&?&?&?&?&?&?&?) (?&?&?&?&?&?&?&?&?&?&?&?).
  split_and!; congruence.
Qed.

Lemma deref_Some h p n : deref h p = Ret n → ∃ l, p = Some l ∧ h !! l = Some n.
Proof.
  destruct p as [l|]; simpl; [|done]. destruct (h !! l) eqn:E; [|done].
  intros [= ->]. by exists l.
Qed.

Lemma bind_Ret {A B} (o : outcome A) (f : A → outcome B) b :
  o ≫= f = Ret b → ∃ a, o = Ret a ∧ f a = Ret b.
Proof. destruct o as [a| | |]; simpl; try done. intros Hf. by exists a. Qed.

Section ResolutionKeeps.
Context `{Env}.

Lemma Name_same n n' :
  Title n' = Title n → ID n = ID n' → Description n' = Description n → Name n' = Name n.
Proof. intros Ht Hi Hd. unfold Name. by rewrite Ht, Hi, Hd. Qed.

Lemma kept_refl root n : kept root n n.
Proof. split_and!; [apply same_keywords_refl|done|done]. Qed.

Lemma kept_trans root n1 n2 n3 : kept root n1 n2 → kept root n2 n3 → kept root n1 n3.
Proof.
  intros (Hs1 & Hr1 & Hn1) (Hs2 & Hr2 & Hn2). split_and!.
  - by eapply same_keywords_trans.
  - auto.
  - intros Hne. destruct (Hn1 Hne) as [Ht Hd].
    assert (Name n2 = Name n1) as Hname.
    { apply Name_same; [done| |done]. by destruct Hs1 as (?&_). }
    destruct Hn2 as [Ht2 Hd2]; [congruence|]. split; congruence.
Qed.

Lemma resolves_refl root h : resolves root h h.
Proof. intros l n Hl. exists n. split; [done|]. intros _. apply kept_refl. Qed.

Lemma resolves_trans root h1 h2 h3 :
  resolves root h1 h2 → resolves root h2 h3 → resolves root h1 h3.
Proof.
  intros H12 H23 l n Hl. destruct (H12 l n Hl) as (n2 & Hl2 & Hk2).
  destruct (H23 l n2 Hl2) as (n3 & Hl3 & Hk3). exists n3. split; [done|].
  intros Hr. pose proof (Hk2 Hr) as Hkept2.
  assert (Ref n2 = "") as Hr2.
  { destruct Hkept2 as ((_&_&_&_&_&_&Heq&_)&_). congruence. }
  eapply (kept_trans root n n2 n3); [done|]. by apply Hk3.
Qed.

Lemma resolves_insert root h l n' :
  (∀ n, h !! l = Some n → Ref n = "" → kept root n n') →
  resolves root h (<[l := n']> h).
Proof.
  intros Hn l0 n0 Hl0. unfold heap, loc in *.
  destruct (decide (l0 = l)) as [->|Hne].
  - exists n'. rewrite lookup_insert_eq. split; [done|]. by apply Hn.
  - exists n0. rewrite lookup_insert_ne by done. split; [done|].
    intros _. apply kept_refl.
Qed.

Lemma resolves_for_heap {A} root (xs : list A) (body : A → heap → outcome heap) h h' :
  (∀ x h h', body x h = Ret h' → resolves root h h') →
  for_heap xs h body = Ret h' → resolves root h h'.
Proof.
  intros Hb. revert h. induction xs as [|x xs IH]; intros h; simpl.
  - intros [= ->]. apply resolves_refl.
  - intros (h1 & H1 & H2)%bind_Ret. eapply resolves_trans; [by eapply Hb|by apply IH].
Qed.

Hypothesis reparse_allocates :
  ∀ j h l h', json_reparse j h = Some (l, h') → h ⊆ h'.

Lemma resolves_subseteq root (h h' : heap) : h ⊆ h' → resolves root h h'.
Proof.
  intros Hsub l n Hl. exists n. split; [by eapply lookup_weaken|].
  intros _. apply kept_refl.
Qed.

Lemma resolves_store_field root h p n n' h' :
  deref h p = Ret n → kept root n n' →
  store h p n' = Ret h' → resolves root h h'.
Proof.
  intros (l & -> & Hl)%deref_Some Hk [= <-]. apply resolves_insert.
  intros n0 Hl0 _. by simplify_eq.
Qed.

Lemma kept_set_Root root n : kept root n (set_Root root n).
Proof. split_and!; [by repeat split|done|done]. Qed.

Lemma kept_set_Title root k n : Name n = "" → kept root n (set_Title k n).
Proof. intros Hn. split_and!; [by repeat split|done|done]. Qed.

Lemma kept_set_Description root d n : Name n = "" → kept root n (set_Description d n).
Proof. intros Hn. split_and!; [by repeat split|done|done]. Qed.

Lemma resolves_raw_fallback rec root schemaPath part h c h' :
  (∀ p h h', rec p h = Ret h' → resolves root h h') →
  raw_fallback rec root schemaPath part h = Ret (c, h') → resolves root h h'.
Proof.
  intros Hrec. unfold raw_fallback.
  intros (r & _ & Hrest)%bind_Ret. apply bind_Ret in Hrest as (cursor & _ & Hrest).
  destruct (json_reparse cursor h) as [[refSchema h1]|] eqn:Hre; [|done].
  apply bind_Ret in Hrest as (h2 & Hrec2 & Hrest).
  apply bind_Ret in Hrest as (n & Hn & Hrest).
  apply bind_Ret in Hrest as (h3 & Hst & [= _ <-]).
  eapply resolves_trans; [apply resolves_subseteq; by eapply reparse_allocates|].
  eapply resolves_trans; [by eapply Hrec|].
  destruct (String.eqb_spec (Name n) "") as [Hnm|Hnm].
  - eapply resolves_store_field; [done| |done]. by apply kept_set_Description.
  - injection Hst as ->. apply resolves_refl.
Qed.

Lemma resolves_ref_step rec root schemaPath part c h c' h' :
  (∀ p h h', rec p h = Ret h' → resolves root h h') →
  ref_step rec root schemaPath part c h = Ret (c', h') → resolves root h h'.
Proof.
  intros Hrec. unfold ref_step.
  repeat (destruct (String.eqb part _);
          [first [intros [= _ <-]; apply resolves_refl
                 |intros (s & _ & [= _ <-])%bind_Ret; apply resolves_refl]|]).
  destruct c as [p|[cast|]]; try by apply resolves_raw_fallback.
  destruct (cast !! part); [|by apply resolves_raw_fallback].
  intros [= _ <-]. apply resolves_refl.
Qed.

Lemma resolves_ref_walk rec root schemaPath parts c h c' h' :
  (∀ p h h', rec p h = Ret h' → resolves root h h') →
  ref_walk rec root schemaPath parts c h = Ret (c', h') → resolves root h h'.
Proof.
  intros Hrec. revert c h. induction parts as [|part rest IH]; intros c h; simpl.
  - intros [= _ <-]. apply resolves_refl.
  - intros ([c1 h1] & H1 & H2)%bind_Ret.
    eapply resolves_trans; [by eapply resolves_ref_step|by eapply IH].
Qed.

Lemma resolves_resolve_ref rec root schema h h' :
  (∀ p h h', rec p h = Ret h' → resolves root h h') →
  resolve_ref rec root schema h = Ret h' → resolves root h h'.
Proof.
  intros Hrec. unfold resolve_ref. intros (n & Hn & Hrest)%bind_Ret.
  destruct (String.eqb_spec (Ref n) "") as [Hr|Hr]; simpl in Hrest.
  { injection Hrest as ->. apply resolves_refl. }
  apply bind_Ret in Hrest as ([c h1] & Hwalk & Hrest).
  pose proof (resolves_ref_walk _ _ _ _ _ _ _ _ Hrec Hwalk) as H1.
  destruct c as [cast|]; [|injection Hrest as ->; done].
  apply bind_Ret in Hrest as (target & _ & Hst).
  apply deref_Some in Hn as (l & -> & Hl). simpl in Hst. injection Hst as Hh'. subst h'.
  intros l0 n0 Hl0. unfold resolves, heap, loc in *.
  destruct (decide (l0 = l)) as [->|Hne].
  - exists target. rewrite lookup_insert_eq. split; [done|]. intros Hr0.
    by simplify_eq.
  - destruct (H1 l0 n0 Hl0) as (n1 & Hl1 & Hk). exists n1.
    rewrite lookup_insert_ne by done. done.
Qed.

Lemma resolves_setRoot fuel root schema h h' :
  setRoot fuel root schema h = Ret h' → resolves root h h'.
Proof.
  revert schema h h'. induction fuel as [|fuel IH]; intros schema h h'; simpl; [done|].
  intros (n & Hn & Hrest)%bind_Ret.
  apply bind_Ret in Hrest as (h1 & Hst & Hrest).
  eapply resolves_trans.
  { eapply resolves_store_field; [done| |done]. apply kept_set_Root. }
  apply bind_Ret in Hrest as (n1 & Hn1 & Hrest).
  apply bind_Ret in Hrest as (h2 & Hprops & Hrest).
  eapply resolves_trans.
  { destruct (Properties n1); [|injection Hprops as ->; apply resolves_refl].
    eapply resolves_for_heap; [|done]. intros [k v] ha hb.
    intros (hc & Hrec & Hrest')%bind_Ret.
    apply bind_Ret in Hrest' as (nv & Hnv & Hrest').
    eapply resolves_trans; [by eapply IH|].
    destruct (String.eqb_spec (Name nv) "") as [Hnm|Hnm].
    - eapply resolves_store_field; [done| |done]. by apply kept_set_Title.
    - injection Hrest' as ->. apply resolves_refl. }
  apply bind_Ret in Hrest as (n2 & Hn2 & Hrest).
  apply bind_Ret in Hrest as (h3 & Hpats & Hrest).
  eapply resolves_trans.
  { destruct (PatternProperties n2); [|injection Hpats as ->; apply resolves_refl].
    eapply resolves_for_heap; [|done]. intros [k v] ha hb. apply IH. }
  apply bind_Ret in Hrest as (n3 & Hn3 & Hrest).
  apply bind_Ret in Hrest as (h4 & Hitems & Hrest).
  eapply resolves_trans.
  { destruct (Items n3); [by eapply IH|injection Hitems as ->; apply resolves_refl]. }
  apply bind_Ret in Hrest as (n4 & Hn4 & Hrest).
  apply bind_Ret in Hrest as (h5 & Hone & Hrest).
  eapply resolves_trans.
  { eapply resolves_for_heap; [|done]. intros one ha hb. apply IH. }
  eapply resolves_resolve_ref; [|done]. intros p ha hb. apply IH.
Qed.

Lemma resolves_noref root h h' l n :
  resolves root h h' → h !! l = Some n → Ref n = "" →
  ∃ n', h' !! l = Some n' ∧ Ref n' = "" ∧ same_keywords n n'
        ∧ (Root n = root → Root n' = root).
Proof.
  intros Hres Hl Hr. destruct (Hres l n Hl) as (n' & Hl' & Hk).
  destruct (Hk Hr) as (Hs & Hroot & _). exists n'. split_and!; try done.
  destruct Hs as (_&_&_&_&_&_&Heq&_). congruence.
Qed.

Lemma reaches_resolves root h h' p l :
  resolves root h h' → reaches h p l → reaches h' p l.
Proof.
  intros Hres. induction 1 as
    [l n Hl|l n props k v l' Hl Hr Hp Hk _ IH|l n pats k v l' Hl Hr Hp Hk _ IH
    |l n l' Hl Hr _ IH|l n one l' Hl Hr Hin _ IH].
  - destruct (Hres l n Hl) as (n' & Hl' & _). by eapply reaches_here.
  - destruct (resolves_noref _ _ _ _ _ Hres Hl Hr) as (n' & Hl' & Hr' & Hs & _).
    destruct Hs as (_&_&_&Hprops&_).
    eapply reaches_property; [done|done| |done|done]. congruence.
  - destruct (resolves_noref _ _ _ _ _ Hres Hl Hr) as (n' & Hl' & Hr' & Hs & _).
    destruct Hs as (_&_&_&_&_&Hpats&_).
    eapply reaches_pattern; [done|done| |done|done]. congruence.
  - destruct (resolves_noref _ _ _ _ _ Hres Hl Hr) as (n' & Hl' & Hr' & Hs & _).
    destruct Hs as (_&_&_&_&_&_&_&Hitems&_).
    eapply reaches_items; [done|done|]. by rewrite <-Hitems.
  - destruct (resolves_noref _ _ _ _ _ Hres Hl Hr) as (n' & Hl' & Hr' & Hs & _).
    destruct Hs as (_&_&_&_&_&_&_&_&Hone&_).
    eapply reaches_oneOf; [done|done| |done]. by rewrite <-Hone.
Qed.

Lemma for_heap_elem {A} root (xs : list A) (body : A → heap → outcome heap) h h' x :
  (∀ x h h', body x h = Ret h' → resolves root h h') →
  for_heap xs h body = Ret h' → x ∈ xs →
  ∃ ha hb, resolves root h ha ∧ body x ha = Ret hb ∧ resolves root hb h'.
Proof.
  intros Hb. revert h. induction xs as [|y xs IH]; intros h Hrun Hin.
  { by apply elem_of_nil in Hin. }
  simpl in Hrun. apply bind_Ret in Hrun as (h1 & H1 & H2).
  apply elem_of_cons in Hin as [->|Hin].
  - exists h, h1. split_and!; [apply resolves_refl|done|].
    by eapply resolves_for_heap.
  - destruct (IH h1 H2 Hin) as (ha & hb & Ha & Hbody & Hb').
    exists ha, hb. split_and!; try done.
    eapply resolves_trans; [by eapply Hb|done].
Qed.

Lemma reaches_Some h p l : reaches h p l → ∃ l0, p = Some l0.
Proof. destruct 1; eauto. Qed.

Lemma setRoot_reaches fuel :
  ∀ root p h h' l n,
    setRoot fuel root p h = Ret h' → reaches h p l → h !! l = Some n → Ref n = "" →
    ∃ n', h' !! l = Some n' ∧ Root n' = root.
Proof.
  induction fuel as [|fuel IH]; [done|].
  intros root p h h' l n Hrun Hreach Hl Hr. simpl in Hrun.
  apply bind_Ret in Hrun as (n0 & Hn0 & Hrun).
  destruct (deref_Some _ _ _ Hn0) as (l0 & -> & Hl0).
  apply bind_Ret in Hrun as (h1 & Hst & Hrun).
  assert (resolves root h h1) as R01.
  { eapply resolves_store_field; [done| |done]. apply kept_set_Root. }
  assert (h1 !! l0 = Some (set_Root root n0)) as Hl01.
  { simpl in Hst. injection Hst as <-. unfold heap, loc in *. apply lookup_insert_eq. }
  apply bind_Ret in Hrun as (n1 & Hn1 & Hrun).
  apply bind_Ret in Hrun as (h2 & Hprops & Hrun).
  assert (n1 = set_Root root n0) as ->.
  { apply deref_Some in Hn1 as (? & [= <-] & Hn1). congruence. }
  assert (resolves root h1 h2) as R12.
  { simpl in Hprops. destruct (Properties n0); [|injection Hprops as ->; apply resolves_refl].
    eapply resolves_for_heap; [|done]. intros [k v] ha hb.
    intros (hc & Hrec & Hrest')%bind_Ret.
    apply bind_Ret in Hrest' as (nv & Hnv & Hrest').
    eapply resolves_trans; [by eapply resolves_setRoot|].
    destruct (String.eqb_spec (Name nv) "") as [Hnm|Hnm].
    - eapply resolves_store_field; [done| |done]. by apply kept_set_Title.
    - injection Hrest' as ->. apply resolves_refl. }
  apply bind_Ret in Hrun as (n2 & Hn2 & Hrun).
  apply bind_Ret in Hrun as (h3 & Hpats & Hrun).
  assert (resolves root h2 h3) as R23.
  { destruct (PatternProperties n2); [|injection Hpats as ->; apply resolves_refl].
    eapply resolves_for_heap; [|done]. intros [k v] ha hb. apply resolves_setRoot. }
  apply bind_Ret in Hrun as (n3 & Hn3 & Hrun).
  apply bind_Ret in Hrun as (h4 & Hitems & Hrun).
  assert (resolves root h3 h4) as R34.
  { destruct (Items n3); [by eapply resolves_setRoot|injection Hitems as ->; apply resolves_refl]. }
  apply bind_Ret in Hrun as (n4 & Hn4 & Hrun).
  apply bind_Ret in Hrun as (h5 & Hone & Hrun).
  assert (resolves root h4 h5) as R45.
  { eapply resolves_for_heap; [|done]. intros one ha hb. apply resolves_setRoot. }
  assert (resolves root h5 h') as R5.
  { eapply resolves_resolve_ref; [|done]. intros p ha hb. apply resolves_setRoot. }
  assert (∀ hx nx, resolves root hx h' → hx !! l = Some nx → Ref nx = "" → Root nx = root →
          ∃ n', h' !! l = Some n' ∧ Root n' = root) as Hfinish.
  { intros hx nx Hres Hx Hrx Hrootx.
    destruct (resolves_noref _ _ _ _ _ Hres Hx Hrx) as (n' & Hl' & _ & _ & Hroot').
    exists n'. auto. }
  assert (∀ ha hc v, resolves root h ha → setRoot fuel root v ha = Ret hc →
          resolves root hc h' → reaches h v l →
          ∃ n', h' !! l = Some n' ∧ Root n' = root) as Hchild.
  { intros ha hc v Ra Hcall Rc Hv.
    destruct (resolves_noref _ _ _ _ _ Ra Hl Hr) as (na & Hla & Hra & _).
    destruct (IH root v ha hc l na Hcall (reaches_resolves _ _ _ _ _ Ra Hv) Hla Hra)
      as (nc & Hlc & Hrootc).
    destruct (resolves_noref _ _ _ _ _ (resolves_setRoot _ _ _ _ _ Hcall) Hla Hra)
      as (nc' & Hlc' & Hrc & _).
    assert (nc' = nc) as -> by congruence.
    by apply (Hfinish hc nc). }
  assert (resolves root h2 h') as R2 by (do 3 (eapply resolves_trans; [done|]); done).
  assert (resolves root h3 h') as R3 by (do 2 (eapply resolves_trans; [done|]); done).
  assert (resolves root h4 h') as R4 by (eapply resolves_trans; done).
  inversion Hreach as
    [? n0' Hl0'|? n0' props k v ? Hl0' Hr0 Hp Hk Hv|? n0' pats k v ? Hl0' Hr0 Hp Hk Hv
    |? n0' ? Hl0' Hr0 Hv|? n0' one ? Hl0' Hr0 Hin Hv]; subst.
  - (* the node itself *)
    assert (n0 = n) as -> by congruence.
    apply (Hfinish h1 (set_Root root n)); [|done|done|done].
    eapply resolves_trans; [done|done].
  - (* below a property *)
    assert (n0' = n0) as -> by congruence. simpl in Hprops. rewrite Hp in Hprops.
    assert ((k, v) ∈ map_to_list props) as Hin by by apply elem_of_map_to_list.
    match type of Hprops with
    | for_heap _ _ ?body = _ =>
      assert (∀ x ha hb, body x ha = Ret hb → resolves root ha hb) as Hbr
    end.
    { intros [k' v'] ha hb. intros (hc & Hrec & Hrest')%bind_Ret.
      apply bind_Ret in Hrest' as (nv & Hnv & Hrest').
      eapply resolves_trans; [by eapply resolves_setRoot|].
      destruct (String.eqb_spec (Name nv) "") as [Hnm|Hnm].
      - eapply resolves_store_field; [done| |done]. by apply kept_set_Title.
      - injection Hrest' as ->. apply resolves_refl. }
    destruct (for_heap_elem root _ _ _ _ _ Hbr Hprops Hin)
      as (ha & hb & Ra & Hbody & Rb).
    simpl in Hbody. apply bind_Ret in Hbody as (hc & Hcall & Hrest').
    apply bind_Ret in Hrest' as (nv & Hnv & Hrest').
    assert (resolves root hc hb) as Rcb.
    { destruct (String.eqb_spec (Name nv) "") as [Hnm|Hnm].
      - eapply resolves_store_field; [done| |done]. by apply kept_set_Title.
      - injection Hrest' as ->. apply resolves_refl. }
    apply (Hchild ha hc v); [by eapply resolves_trans|done| |done].
    eapply resolves_trans; [done|]. eapply resolves_trans; [done|done].
  - (* below a pattern property *)
    assert (n0' = n0) as -> by congruence.
    destruct (resolves_noref _ _ _ _ _ (resolves_trans _ _ _ _ R01 R12) Hl0 Hr0)
      as (n2' & Hl2 & _ & Hs2 & _).
    apply deref_Some in Hn2 as (? & [= <-] & Hn2). assert (n2' = n2) as -> by congruence.
    destruct Hs2 as (_&_&_&_&_&Hpp&_). rewrite <-Hpp, Hp in Hpats.
    assert ((k, v) ∈ map_to_list pats) as Hin by by apply elem_of_map_to_list.
    match type of Hpats with
    | for_heap _ _ ?body = _ =>
      assert (∀ x ha hb, body x ha = Ret hb → resolves root ha hb) as Hbr
    end.
    { intros [k' v'] ha hb. apply resolves_setRoot. }
    destruct (for_heap_elem root _ _ _ _ _ Hbr Hpats Hin)
      as (ha & hb & Ra & Hbody & Rb).
    simpl in Hbody.
    apply (Hchild ha hb v); [|done| |done].
    + eapply resolves_trans; [done|]. eapply resolves_trans; [done|done].
    + eapply resolves_trans; [done|done].
  - (* below the items *)
    assert (n0' = n0) as -> by congruence.
    destruct (resolves_noref _ _ _ _ _
                (resolves_trans _ _ _ _ R01 (resolves_trans _ _ _ _ R12 R23)) Hl0 Hr0)
      as (n3' & Hl3 & _ & Hs3 & _).
    apply deref_Some in Hn3 as (? & [= <-] & Hn3). assert (n3' = n3) as -> by congruence.
    destruct Hs3 as (_&_&_&_&_&_&_&Hit&_).
    destruct (reaches_Some _ _ _ Hv) as (i & Hi). rewrite <-Hit, Hi in Hitems.
    apply (Hchild h3 h4 (Some i)); [|done|done|by rewrite <-Hi].
    eapply resolves_trans; [done|]. eapply resolves_trans; [done|done].
  - (* below an alternative *)
    assert (n0' = n0) as -> by congruence.
    assert (resolves root h h4) as R04.
    { exact (resolves_trans _ _ _ _ R01
               (resolves_trans _ _ _ _ R12 (resolves_trans _ _ _ _ R23 R34))). }
    destruct (resolves_noref _ _ _ _ _ R04 Hl0 Hr0) as (n4' & Hl4 & _ & Hs4 & _).
    apply deref_Some in Hn4 as (? & [= <-] & Hn4). assert (n4' = n4) as -> by congruence.
    destruct Hs4 as (_&_&_&_&_&_&_&_&Hof&_). rewrite <-Hof in Hone.
    match type of Hone with
    | for_heap _ _ ?body = _ =>
      assert (∀ x ha hb, body x ha = Ret hb → resolves root ha hb) as Hbr
    end.
    { intros x ha hb. apply resolves_setRoot. }
    destruct (for_heap_elem root _ _ _ _ _ Hbr Hone Hin)
      as (ha & hb & Ra & Hbody & Rb).
    apply (Hchild ha hb one); [by eapply resolves_trans|done| |done].
    eapply resolves_trans; [done|done].
Qed.

(** X14: resolution frees no cell, and a node that carries no reference
    keeps its keywords through it (only its title, its description and its
    back-reference to the root may change) and, once it has a name, keeps
    that name.  The decoder used for paths outside the typed graph only
    allocates. *)
Theorem setRoot_keeps_keywords_and_names :
  ∀ (fuel : nat) (root p : ptr) (h h' : heap) (l : loc) (n : Schema),
    setRoot fuel root p h = Ret h' → h !! l = Some n →
    ∃ n', h' !! l = Some n'
          ∧ (Ref n = "" → same_keywords n n' ∧ (Name n ≠ "" → Name n' = Name n)).
Proof.
  intros fuel root p h h' l n Hrun Hl.
  destruct (resolves_setRoot _ _ _ _ _ Hrun l n Hl) as (n' & Hl' & Hk).
  exists n'. split; [done|]. intros Hr. destruct (Hk Hr) as (Hs & _ & Hnm).
  split; [done|]. intros Hne. destruct (Hnm Hne) as [Ht Hd].
  apply Name_same; [done| |done]. by destruct Hs as (?&_).
Qed.

(** X15: when setRoot returns, every node that carries no reference and that
    is reached from the visited node through the properties, the pattern
    properties, the items and the alternatives of nodes that carry no
    reference has its back-reference set to the root.  The decoder used for
    paths outside the typed graph only allocates. *)
Theorem setRoot_sets_root_of_reached :
  ∀ (fuel : nat) (root p : ptr) (h h' : heap) (l : loc) (n : Schema),
    setRoot fuel root p h = Ret h' → reaches h p l → h !! l = Some n → Ref n = "" →
    ∃ n', h' !! l = Some n' ∧ Root n' = root.
Proof. intros fuel root p h h' l n. apply setRoot_reaches. Qed.

(** X16: when ParseSchema returns on a document whose root carries no
    reference, the root still has its keywords, holds the raw document, and
    is its own root.  The decoder used for paths outside the typed graph
    only allocates. *)
Theorem ParseSchema_root :
  ∀ (fuel : nat) (h h' : heap) (schema : loc) (rawdoc : gmap string json) (n : Schema),
    ParseSchema fuel h schema rawdoc = Ret h' → h !! schema = Some n → Ref n = "" →
    ∃ n', h' !! schema = Some n'
          ∧ same_keywords (set_raw (Some rawdoc) n) n'
          ∧ raw n' = Some rawdoc
          ∧ Root n' = Some schema.
Proof.
  intros fuel h h' schema rawdoc n Hrun Hl Hr. unfold ParseSchema in Hrun.
  apply bind_Ret in Hrun as (n0 & Hn0 & Hrun).
  apply deref_Some in Hn0 as (? & [= <-] & Hn0). assert (n0 = n) as -> by congruence.
  apply bind_Ret in Hrun as (h1 & Hst & Hrun). simpl in Hst. injection Hst as <-.
  assert ((<[schema := set_raw (Some rawdoc) n]> h : heap) !! schema
          = Some (set_raw (Some rawdoc) n)) as Hl1.
  { unfold heap, loc in *. apply lookup_insert_eq. }
  destruct (resolves_noref _ _ _ _ _ (resolves_setRoot _ _ _ _ _ Hrun) Hl1 Hr)
    as (n' & Hl' & _ & Hs & _).
  destruct (setRoot_reaches _ _ _ _ _ _ _ Hrun (reaches_here _ _ _ Hl1) Hl1 Hr)
    as (n'' & Hl'' & Hroot).
  assert (n'' = n') as -> by congruence.
  exists n'. split_and!; try done.
  destruct Hs as (_&_&_&_&_&_&_&_&_&_&_&Hraw). by rewrite <-Hraw.
Qed.

End ResolutionKeeps.

Lemma example_reparse_allocates :
  ∀ (j : json) (h : heap) (l : loc) (h' : heap),
    @json_reparse (Examples.env Examples.ascending) j h = Some (l, h') → h ⊆ h'.
Proof. intros j h l h' Hre. discriminate Hre. Defined.

(** X14, witness: the root of the example document keeps its keywords. *)
Lemma setRoot_keeps_keywords_and_names_witness :
  ∃ h' n',
    @setRoot (Examples.env Examples.ascending) 3 (Some 0%nat) (Some 0%nat) ExamplesMore.doc
    = Ret h'
    ∧ h' !! 0%nat = Some n' ∧ same_keywords ExamplesMore.doc_root n'.
Proof.
  destruct (@setRoot (Examples.env Examples.ascending) 3 (Some 0%nat) (Some 0%nat)
              ExamplesMore.doc) as [h'|e|p|] eqn:Hrun;
    [|vm_compute in Hrun; discriminate Hrun..].
  assert (ExamplesMore.doc !! 0%nat = Some ExamplesMore.doc_root) as Hl
    by (vm_compute; reflexivity).
  destruct (@setRoot_keeps_keywords_and_names (Examples.env Examples.ascending)
              example_reparse_allocates 3 (Some 0%nat) (Some 0%nat) ExamplesMore.doc h'
              0%nat ExamplesMore.doc_root Hrun Hl) as (n' & Hl' & Hk).
  exists h', n'. split; [reflexivity|]. split; [exact Hl'|].
  exact (proj1 (Hk eq_refl)).
Defined.

(** X15, witness: the property a of the example document gets the root. *)
Lemma setRoot_sets_root_of_reached_witness :
  ∃ h' n',
    @setRoot (Examples.env Examples.ascending) 3 (Some 0%nat) (Some 0%nat) ExamplesMore.doc
    = Ret h'
    ∧ h' !! 1%nat = Some n' ∧ Root n' = Some 0%nat.
Proof.
  destruct (@setRoot (Examples.env Examples.ascending) 3 (Some 0%nat) (Some 0%nat)
              ExamplesMore.doc) as [h'|e|p|] eqn:Hrun;
    [|vm_compute in Hrun; discriminate Hrun..].
  assert (ExamplesMore.doc !! 0%nat = Some ExamplesMore.doc_root) as Hl0
    by (vm_compute; reflexivity).
  assert (ExamplesMore.doc !! 1%nat = Some (Examples.node "" STRING None "")) as Hl1
    by (vm_compute; reflexivity).
  assert (reaches ExamplesMore.doc (Some 0%nat) 1%nat) as Hreach.
  { apply (reaches_property ExamplesMore.doc 0%nat ExamplesMore.doc_root
             (list_to_map [("a", Some 1%nat); ("b", Some 2%nat)]) "a" (Some 1%nat) 1%nat
             Hl0 eq_refl eq_refl).
    - vm_compute. reflexivity.
    - exact (reaches_here ExamplesMore.doc 1%nat _ Hl1). }
  destruct (@setRoot_sets_root_of_reached (Examples.env Examples.ascending)
              example_reparse_allocates 3 (Some 0%nat) (Some 0%nat) ExamplesMore.doc h'
              1%nat (Examples.node "" STRING None "") Hrun Hreach Hl1 eq_refl)
    as (n' & Hl' & Hroot).
  exists h', n'. split; [reflexivity|]. split; [exact Hl'|exact Hroot].
Defined.

(** X16, witness: the example document. *)
Lemma ParseSchema_root_witness :
  ∃ h' n',
    @ParseSchema (Examples.env Examples.ascending) 3 ExamplesMore.doc 0%nat ∅ = Ret h'
    ∧ h' !! 0%nat = Some n' ∧ raw n' = Some ∅ ∧ Root n' = Some 0%nat.
Proof.
  destruct (@ParseSchema (Examples.env Examples.ascending) 3 ExamplesMore.doc 0%nat ∅)
    as [h'|e|p|] eqn:Hrun; [|vm_compute in Hrun; discriminate Hrun..].
  assert (ExamplesMore.doc !! 0%nat = Some ExamplesMore.doc_root) as Hl
    by (vm_compute; reflexivity).
  destruct (@ParseSchema_root (Examples.env Examples.ascending) example_reparse_allocates
              3 ExamplesMore.doc h' 0%nat ∅ ExamplesMore.doc_root Hrun Hl eq_refl)
    as (n' & Hl' & _ & Hraw & Hroot).
  exists h', n'. split; [reflexivity|]. split; [exact Hl'|]. split; [exact Hraw|exact Hroot].
Defined.
